(** * chartForge: the PDF chart converter (scripts/convert_pdf.py)

    A shallow embedding of the page reconstruction and chord assembly
    engine, and the properties of it that the specification states.

    Modelling conventions.
    - A Python [str] is a sequence of Unicode code points: [text] is a list
      of code points ([N]).  [lit] injects an ASCII literal.
    - Coordinates and font sizes are Python floats.  They are modelled as
      rationals ([Q]); comparisons are exact and rounding of [-] and [+] is
      abstracted away.  Python's [==] on floats is [Qeq], so dictionaries
      keyed by an x coordinate are association lists looked up with
      [Qeq_bool].
    - [str.lower], [str.upper] and [str.title] act on the letters A-Z and
      a-z and leave any other code point unchanged; [str.isdigit] and the
      regular expression class [\d] are the digits 0-9.  White space
      ([str.strip], [\s]) is the full set of code points Python treats as
      white space. *)

From Stdlib Require Import List Bool NArith ZArith QArith Qabs Lqa Lia String Ascii Sorted Permutation.
Import ListNotations.

Set Implicit Arguments.

(* ================================================================== *)
(** ** Text *)

Module Text.

Definition char := N.
Definition text := list char.

Definition lit (s : string) : text :=
  map N_of_ascii (list_ascii_of_string s).

Local Open Scope N_scope.

Fixpoint eqb (a b : text) : bool :=
  match a, b with
  | [], [] => true
  | x :: a', y :: b' => (x =? y) && eqb a' b'
  | _, _ => false
  end.

(** [s.startswith(p)] *)
Fixpoint startswith (p s : text) : bool :=
  match p, s with
  | [], _ => true
  | x :: p', y :: s' => (x =? y) && startswith p' s'
  | _ :: _, [] => false
  end.

(** [p in s] *)
Fixpoint contains (p s : text) : bool :=
  startswith p s ||
  match s with
  | [] => false
  | _ :: s' => contains p s'
  end.

(** [s.endswith(p)] *)
Definition endswith (p s : text) : bool :=
  startswith (rev p) (rev s).

(** [s.count(c)] for a one-character [c] *)
Definition count (c : char) (s : text) : nat :=
  List.length (filter (N.eqb c) s).

Definition is_upper (c : char) : bool := (65 <=? c) && (c <=? 90).
Definition is_lower (c : char) : bool := (97 <=? c) && (c <=? 122).
Definition is_cased (c : char) : bool := is_upper c || is_lower c.
Definition is_digit (c : char) : bool := (48 <=? c) && (c <=? 57).

(** The code points for which [str.isspace] holds. *)
Definition is_space (c : char) : bool :=
  ((9 <=? c) && (c <=? 13)) || ((28 <=? c) && (c <=? 32)) ||
  (c =? 133) || (c =? 160) || (c =? 5760) ||
  ((8192 <=? c) && (c <=? 8202)) || (c =? 8232) || (c =? 8233) ||
  (c =? 8239) || (c =? 8287) || (c =? 12288).

Definition lower_char (c : char) : char := if is_upper c then c + 32 else c.
Definition upper_char (c : char) : char := if is_lower c then c - 32 else c.

(** [s.lower()], [s.upper()] *)
Definition lower (s : text) : text := map lower_char s.
Definition upper (s : text) : text := map upper_char s.

(** [s.title()]: a cased character is upper-cased when the character before
    it is not cased, and lower-cased when it is. *)
Fixpoint title_from (prev_cased : bool) (s : text) : text :=
  match s with
  | [] => []
  | c :: s' =>
      (if is_cased c
       then (if prev_cased then lower_char c else upper_char c)
       else c) :: title_from (is_cased c) s'
  end.

Definition title (s : text) : text := title_from false s.

(** [s.isdigit()] *)
Definition isdigit (s : text) : bool :=
  match s with
  | [] => false
  | _ => forallb is_digit s
  end.

(** [s.lstrip()], [s.rstrip()], [s.strip()] *)
Fixpoint lstrip (s : text) : text :=
  match s with
  | c :: s' => if is_space c then lstrip s' else s
  | [] => []
  end.

Definition rstrip (s : text) : text := rev (lstrip (rev s)).
Definition strip (s : text) : text := rstrip (lstrip s).

(** [s.replace(a, b)] for one-character [a] and [b], and [s.replace(a, '')]. *)
Definition replace_char (a b : char) (s : text) : text :=
  map (fun c => if c =? a then b else c) s.

Definition remove_char (a : char) (s : text) : text :=
  filter (fun c => negb (c =? a)) s.

(** [sep.join(parts)] *)
Fixpoint join (sep : text) (parts : list text) : text :=
  match parts with
  | [] => []
  | [p] => p
  | p :: rest => p ++ sep ++ join sep rest
  end.

(** [s.split(sep)] for a one-character [sep]: never the empty list. *)
Fixpoint split (sep : char) (s : text) : list text :=
  match s with
  | [] => [[]]
  | c :: s' =>
      if c =? sep then [] :: split sep s'
      else match split sep s' with
           | [] => [[c]]
           | p :: ps => (c :: p) :: ps
           end
  end.

End Text.

Import Text.

(* ================================================================== *)
(** ** Numbers *)

Definition Qltb (a b : Q) : bool := negb (Qle_bool b a).

(* ================================================================== *)
(** ** Tokens and their classification *)

(** A word as [page.extract_words(..., extra_attrs=['fontname','size'])]
    returns it. *)
Record Word := mkWord {
  w_text : text;
  w_x0 : Q;
  w_top : Q;
  w_bottom : Q;
  w_fontname : text;
  w_size : Q
}.

Inductive Role :=
| badge | section_name | chord_modifier | bass_note | chord
| dynamics | lyric | title_role | meta | unknown.

Definition Role_eqb (a b : Role) : bool :=
  match a, b with
  | badge, badge | section_name, section_name
  | chord_modifier, chord_modifier | bass_note, bass_note
  | chord, chord | dynamics, dynamics | lyric, lyric
  | title_role, title_role | meta, meta | unknown, unknown => true
  | _, _ => false
  end.

Definition chord_modifier_patterns : list text :=
  [lit "sus"; lit "add"; lit "maj"; lit "min"; lit "dim"; lit "aug"; lit "m"].

Definition is_bold_font (fontname : text) : bool := contains (lit "Bold") fontname.

Definition is_regular_font (fontname : text) : bool :=
  contains (lit "Regular") fontname || negb (is_bold_font fontname).

Definition is_modifier_text (t : text) : bool :=
  existsb (fun m => startswith m (lower t)) chord_modifier_patterns || isdigit t.

Definition between (lo hi s : Q) : bool := Qle_bool lo s && Qle_bool s hi.

Definition classify_word (word : Word) : Role :=
  let fontname := w_fontname word in
  let size := w_size word in
  let t := w_text word in
  let is_bold := is_bold_font fontname in
  let is_regular := is_regular_font fontname in
  let is_modifier := is_modifier_text t in
  if is_bold && between 9 11 size then
    (if is_modifier then chord_modifier else badge)
  else if is_bold && between 14 16 size then section_name
  else if is_bold && startswith (lit "/") t then bass_note
  else if is_bold && between 13 14 size && eqb t (lit "m") then chord_modifier
  else if is_bold && between 13 14 size then chord
  else if is_regular && (Qle_bool 12 size && Qltb size 13) then dynamics
  else if is_regular && between 13 14 size then lyric
  else if is_bold && Qltb 20 size then title_role
  else if Qltb size 12 then meta
  else unknown.

(* ================================================================== *)
(** ** Chord text normalisation *)

Definition sharp_sign : char := 9839%N.   (* U+266F *)
Definition flat_sign : char := 9837%N.    (* U+266D *)

(** [normalize_chord]: the conditional [if s else s] returns an empty
    text as it is. *)
Definition normalize_chord (s : text) : text :=
  match s with
  | [] => s
  | _ => remove_char 32%N (replace_char flat_sign 98%N (replace_char sharp_sign 35%N s))
  end.

(* ================================================================== *)
(** ** Metadata extractor *)

(** A dictionary with string keys, as the [metadata] dict. *)
Definition Dict := list (string * text).

Fixpoint dict_get (d : Dict) (k : string) : option text :=
  match d with
  | [] => None
  | (k', v) :: d' => if String.eqb k k' then Some v else dict_get d' k
  end.

(** [d.get(k, default)] *)
Definition dict_get_default (d : Dict) (k : string) (default : text) : text :=
  match dict_get d k with
  | Some v => v
  | None => default
  end.

(** [d[k] = v] *)
Fixpoint dict_set (d : Dict) (k : string) (v : text) : Dict :=
  match d with
  | [] => [(k, v)]
  | (k', v') :: d' =>
      if String.eqb k k' then (k', v) :: d' else (k', v') :: dict_set d' k v
  end.

(** The longest prefix of characters satisfying [p], and what follows it. *)
Fixpoint span {A} (p : A -> bool) (s : list A) : list A * list A :=
  match s with
  | [] => ([], [])
  | c :: s' =>
      if p c then let (a, b) := span p s' in (c :: a, b) else ([], s)
  end.

(** [re.search]: the match at the leftmost position where the pattern
    matches; [m] matches the pattern at the start of its argument and
    returns group 1. *)
Fixpoint re_search (m : text -> option text) (s : text) : option text :=
  match m s with
  | Some g => Some g
  | None =>
      match s with
      | [] => None
      | _ :: s' => re_search m s'
      end
  end.

(** What follows the literal [p] at the start of [s]. *)
Fixpoint after_prefix (p s : text) : option text :=
  match p, s with
  | [], _ => Some s
  | x :: p', y :: s' => if (x =? y)%N then after_prefix p' s' else None
  | _ :: _, [] => None
  end.

(** [Key:\s*([A-G][#b♯♭]?m?)] at the start of [s]. *)
Definition match_key (s : text) : option text :=
  match after_prefix (lit "Key:") s with
  | None => None
  | Some r =>
      match lstrip r with
      | c :: r1 =>
          if ((65 <=? c) && (c <=? 71))%N then
            let (acc, r2) :=
              match r1 with
              | a :: r2 =>
                  if ((a =? 35) || (a =? 98) || (a =? sharp_sign) || (a =? flat_sign))%N
                  then ([a], r2) else ([], r1)
              | [] => ([], r1)
              end in
            let minor :=
              match r2 with
              | m :: _ => if (m =? 109)%N then [m] else []
              | [] => []
              end in
            Some (c :: acc ++ minor)
          else None
      | [] => None
      end
  end.

(** [Tempo:\s*(\d+)] at the start of [s]. *)
Definition match_tempo (s : text) : option text :=
  match after_prefix (lit "Tempo:") s with
  | None => None
  | Some r =>
      match fst (span is_digit (lstrip r)) with
      | [] => None
      | d => Some d
      end
  end.

(** [Time:\s*(\d+/\d+)] at the start of [s]. *)
Definition match_time (s : text) : option text :=
  match after_prefix (lit "Time:") s with
  | None => None
  | Some r =>
      match span is_digit (lstrip r) with
      | ([], _) => None
      | (n, c :: r1) =>
          if (c =? 47)%N then
            match fst (span is_digit r1) with
            | [] => None
            | d => Some (n ++ [c] ++ d)
            end
          else None
      | (_, []) => None
      end
  end.

(** [re.match(r'^(.+?)\s*Key:', line)]: group 1 is the shortest non-empty
    prefix without a newline after which [\s*Key:] matches. *)
Fixpoint artist_rest (group_rev : text) (s : text) : option text :=
  if startswith (lit "Key:") (lstrip s) then Some (rev group_rev)
  else match s with
       | [] => None
       | c :: s' => if (c =? 10)%N then None else artist_rest (c :: group_rev) s'
       end.

Definition artist_match (line : text) : option text :=
  match line with
  | [] => None
  | c :: s' => if (c =? 10)%N then None else artist_rest [c] s'
  end.

Definition nonempty {A} (l : list A) : bool :=
  match l with [] => false | _ => true end.

(** The loop over [enumerate(lines)]: the state is [title_parts] and
    [metadata['artist']]; a [break] returns the state. *)
Fixpoint scan_title (i : nat) (lines : list text) (title_parts : list text)
    (artist : text) : list text * text :=
  match lines with
  | [] => (title_parts, artist)
  | line :: rest =>
      let line_stripped := strip line in
      if contains (lit "Page:") line || contains (lit "Key:") line then
        if contains (lit "Key:") line then
          match artist_match line with
          | Some g =>
              let artist_text := strip g in
              if nonempty artist_text && negb (endswith (lit ")") artist_text)
                 && negb (endswith (lit "]") artist_text)
              then (title_parts, artist_text)
              else (title_parts, artist)
          | None => (title_parts, artist)
          end
        else (title_parts, artist)
      else if Nat.eqb i 0 then
        scan_title (S i) rest (title_parts ++ [line_stripped]) artist
      else if Nat.eqb i 1 then
        if startswith (lit ")") line_stripped || startswith (lit "]") line_stripped
           || match title_parts with
              | [] => false
              | t0 :: _ =>
                  Nat.ltb (count 41%N t0) (count 40%N t0)
                  || Nat.ltb (count 93%N t0) (count 91%N t0)
              end
        then scan_title (S i) rest (title_parts ++ [line_stripped]) artist
        else (title_parts, line_stripped)
      else scan_title (S i) rest title_parts artist
  end.

(** [extract_metadata], on the text of the first page
    ([page.extract_text() or '']). *)
Definition extract_metadata_text (t : text) : Dict :=
  let metadata : Dict :=
    [("title", []); ("artist", []); ("key", []); ("tempo", []);
     ("time", lit "4/4")]%string in
  let lines := split 10%N t in
  let '(title_parts, artist) :=
    scan_title 0 lines [] (dict_get_default metadata "artist" []) in
  let metadata := dict_set metadata "artist" artist in
  let metadata := dict_set metadata "title" (join (lit " ") title_parts) in
  let metadata :=
    match re_search match_key t with
    | Some g =>
        dict_set metadata "key"
          (replace_char flat_sign 98%N (replace_char sharp_sign 35%N g))
    | None => metadata
    end in
  let metadata :=
    match re_search match_tempo t with
    | Some g => dict_set metadata "tempo" g
    | None => metadata
    end in
  let metadata :=
    match re_search match_time t with
    | Some g => dict_set metadata "time" g
    | None => metadata
    end in
  metadata.

(* ================================================================== *)
(** ** Pages *)

(** A vector curve of [page.objects['curve']], with its [x0] and [top]. *)
Record Curve := mkCurve { cv_x0 : Q; cv_top : Q }.

(** What the converter reads of a pdfplumber page. *)
Record Page := mkPage {
  page_width : Q;
  page_words : list Word;      (* page.extract_words(...) *)
  page_curves : list Curve;    (* page.objects.get('curve', []) *)
  page_text : text             (* page.extract_text() or '' *)
}.

(** [detect_sharp_curves] *)
Definition detect_sharp_curves (page : Page) (chord_x chord_y modifier_x : Q) : bool :=
  existsb
    (fun curve =>
       let cx := cv_x0 curve in
       let cy := cv_top curve in
       Qltb chord_x cx && Qltb cx modifier_x && Qltb (Qabs (cy - chord_y)) 10)
    (page_curves page).

(* ================================================================== *)
(** ** Sorting *)

(** Python's [sorted] is stable: equal keys keep their order.  [le a b]
    says that the key of [a] is at most the key of [b]. *)
Section Sorting.
Variable A : Type.
Variable le : A -> A -> bool.

Fixpoint insert_sorted (a : A) (l : list A) : list A :=
  match l with
  | [] => [a]
  | b :: l' => if le a b then a :: l else b :: insert_sorted a l'
  end.

Definition sorted (l : list A) : list A := fold_right insert_sorted [] l.
End Sorting.

(** The key [(w['top'], w['x0'])], compared as Python compares tuples. *)
Definition word_key_le (a b : Word) : bool :=
  if Qeq_bool (w_top a) (w_top b) then Qle_bool (w_x0 a) (w_x0 b)
  else Qltb (w_top a) (w_top b).

Definition word_x0_le (a b : Word) : bool := Qle_bool (w_x0 a) (w_x0 b).

(* ================================================================== *)
(** ** Line grouper *)

Record GroupState := mkGroup {
  g_lines : list (list Word);
  g_current_line : list Word;
  g_current_y : option Q
}.

(** [current_y or w['top']]: a [current_y] of 0.0 is falsy. *)
Definition y_or (current_y : option Q) (top : Q) : Q :=
  match current_y with
  | Some y => if Qeq_bool y 0 then top else y
  | None => top
  end.

Definition group_step (st : GroupState) (w : Word) : GroupState :=
  let same_row :=
    match g_current_y st with
    | None => true
    | Some y => Qle_bool (Qabs (w_top w - y)) 6
    end in
  if same_row then
    mkGroup (g_lines st) (g_current_line st ++ [w])
            (Some (y_or (g_current_y st) (w_top w)))
  else
    mkGroup
      (if nonempty (g_current_line st)
       then g_lines st ++ [sorted word_x0_le (g_current_line st)]
       else g_lines st)
      [w] (Some (w_top w)).

Definition group_lines (words : list Word) : list (list Word) :=
  let st := fold_left group_step (sorted word_key_le words) (mkGroup [] [] None) in
  if nonempty (g_current_line st)
  then g_lines st ++ [sorted word_x0_le (g_current_line st)]
  else g_lines st.

(* ================================================================== *)
(** ** Lines and sections *)

(** [{'text': ..., 'x': ...}] *)
Record Span := mkSpan { sp_text : text; sp_x : Q }.

(** A line is [{'type': 'dynamics', 'text': t}] or
    [{'chords': [...], 'lyrics': [...]}]. *)
Inductive Line :=
| DynamicsLine (t : text)
| ChordLine (chords lyrics : list Span).

(** [{'name': ..., 'dynamics': ... or None, 'lines': [...]}] *)
Record Section := mkSection {
  sec_name : text;
  sec_dynamics : option text;
  sec_lines : list Line
}.

(* ================================================================== *)
(** ** Chord assembler *)

(** A dictionary keyed by a chord's x coordinate. *)
Fixpoint xdict_get {V} (d : list (Q * V)) (k : Q) : option V :=
  match d with
  | [] => None
  | (k', v) :: d' => if Qeq_bool k k' then Some v else xdict_get d' k
  end.

Fixpoint xdict_set {V} (d : list (Q * V)) (k : Q) (v : V) : list (Q * V) :=
  match d with
  | [] => [(k, v)]
  | (k', v') :: d' =>
      if Qeq_bool k k' then (k', v) :: d' else (k', v') :: xdict_set d' k v
  end.

Definition xdict_mem {V} (d : list (Q * V)) (k : Q) : bool :=
  match xdict_get d k with Some _ => true | None => false end.

(** The search for the closest chord to the left of [x], closer than
    [max_dist]: the state is [(best_chord_x, best_chord_w)] and
    [best_dist]. *)
Definition nearest_step (x : Q) (st : option (Q * Word) * Q) (c : Word * Q)
    : option (Q * Word) * Q :=
  let '(chord_w, chord_x) := c in
  let dist := x - chord_x in
  if Qltb 0 dist && Qltb dist (snd st) then (Some (chord_x, chord_w), dist)
  else st.

Definition nearest_left (max_dist : Q) (raw_chords : list (Word * Q)) (x : Q)
    : option (Q * Word) :=
  fst (fold_left (nearest_step x) raw_chords (None, max_dist)).

(** The loop over [modifiers]: the state is [chord_modifiers] and
    [chord_has_sharp]. *)
Definition modifier_step (page : option Page) (raw_chords : list (Word * Q))
    (st : list (Q * list text) * list (Q * bool)) (m : Word * Q)
    : list (Q * list text) * list (Q * bool) :=
  let '(chord_modifiers, chord_has_sharp) := st in
  let '(mod_w, mod_x) := m in
  match nearest_left 25 raw_chords mod_x with
  | Some (best_chord_x, best_chord_w) =>
      let chord_modifiers :=
        if xdict_mem chord_modifiers best_chord_x then chord_modifiers
        else xdict_set chord_modifiers best_chord_x [] in
      let chord_has_sharp :=
        match page with
        | Some pg =>
            if detect_sharp_curves pg best_chord_x (w_top best_chord_w) mod_x
            then xdict_set chord_has_sharp best_chord_x true
            else chord_has_sharp
        | None => chord_has_sharp
        end in
      let mods :=
        match xdict_get chord_modifiers best_chord_x with
        | Some l => l
        | None => []
        end in
      (xdict_set chord_modifiers best_chord_x (mods ++ [w_text mod_w]),
       chord_has_sharp)
  | None => st
  end.

Definition attach_modifiers (page : option Page) (raw_chords modifiers : list (Word * Q))
    : list (Q * list text) * list (Q * bool) :=
  fold_left (modifier_step page raw_chords) modifiers ([], []).

(** The loop over [bass_notes]: the state is [chord_bass]. *)
Definition bass_step (raw_chords : list (Word * Q)) (chord_bass : list (Q * text))
    (b : Word * Q) : list (Q * text) :=
  let '(bass_w, bass_x) := b in
  match nearest_left 50 raw_chords bass_x with
  | Some (best_chord_x, _) => xdict_set chord_bass best_chord_x (w_text bass_w)
  | None => chord_bass
  end.

Definition attach_bass (raw_chords bass_notes : list (Word * Q)) : list (Q * text) :=
  fold_left (bass_step raw_chords) bass_notes [].

(** Sharps on chords without a modifier: a curve within 15px to the right. *)
Definition standalone_sharp_step (page : option Page)
    (chord_modifiers : list (Q * list text))
    (chord_has_sharp : list (Q * bool)) (c : Word * Q) : list (Q * bool) :=
  let '(chord_w, chord_x) := c in
  if negb (xdict_mem chord_modifiers chord_x) && negb (xdict_mem chord_has_sharp chord_x)
  then
    match page with
    | Some pg =>
        if existsb
             (fun curve =>
                let cx := cv_x0 curve in
                let cy := cv_top curve in
                Qltb chord_x cx && Qltb cx (chord_x + 15)
                && Qltb (Qabs (cy - w_top chord_w)) 10)
             (page_curves pg)
        then xdict_set chord_has_sharp chord_x true
        else chord_has_sharp
    | None => chord_has_sharp
    end
  else chord_has_sharp.

(** The composite text of one chord, before normalisation. *)
Definition chord_text (chord_modifiers : list (Q * list text))
    (chord_has_sharp : list (Q * bool)) (chord_bass : list (Q * text))
    (c : Word * Q) : text :=
  let '(chord_w, chord_x) := c in
  let t := w_text chord_w in
  let t := if xdict_mem chord_has_sharp chord_x then t ++ lit "#" else t in
  let t :=
    match xdict_get chord_modifiers chord_x with
    | Some mods => t ++ join [] mods
    | None => t
    end in
  let t :=
    match xdict_get chord_bass chord_x with
    | Some b => t ++ b
    | None => t
    end in
  t.

(** The chords of a row: [chords] of lines 269-281, then the ['chords'] of
    [line_data], where [normalize_chord] is applied to the composite text. *)
Definition sharp_marks (page : option Page) (raw_chords modifiers : list (Word * Q))
    : list (Q * bool) :=
  let '(chord_modifiers, chord_has_sharp) := attach_modifiers page raw_chords modifiers in
  fold_left (standalone_sharp_step page chord_modifiers) raw_chords chord_has_sharp.

Definition build_chords (page : option Page)
    (raw_chords modifiers bass_notes : list (Word * Q)) : list (Span * Q) :=
  let chord_modifiers := fst (attach_modifiers page raw_chords modifiers) in
  let chord_bass := attach_bass raw_chords bass_notes in
  let chord_has_sharp := sharp_marks page raw_chords modifiers in
  map (fun c => (mkSpan (chord_text chord_modifiers chord_has_sharp chord_bass c) (snd c),
                 snd c))
      raw_chords.

Definition line_chords (chords : list (Span * Q)) : list Span :=
  map (fun c => mkSpan (normalize_chord (sp_text (fst c))) (snd c)) chords.

(* ================================================================== *)
(** ** Section names *)

(** The class [[─━—–-]]: U+2500, U+2501, U+2014, U+2013 and the hyphen. *)
Definition is_rule (c : char) : bool :=
  ((c =? 9472) || (c =? 9473) || (c =? 8212) || (c =? 8211) || (c =? 45))%N.

(** [$] matches at the end of the text and before a newline that ends it. *)
Definition at_end (s : text) : bool :=
  match s with
  | [] => true
  | [c] => (c =? 10)%N
  | _ => false
  end.

(** [re.sub(r'[─━—–-]+$', '', s)]: the leftmost match is a maximal run of
    rule characters that [$] follows; nothing can match after it. *)
Fixpoint sub_rule_end (s : text) : text :=
  match s with
  | [] => []
  | c :: s' =>
      if is_rule c && at_end (snd (span is_rule s)) then snd (span is_rule s)
      else c :: sub_rule_end s'
  end.

(** [(\d+)\s*$] at the start of [s]: group 1. *)
Definition match_number (s : text) : option text :=
  match span is_digit s with
  | ([], _) => None
  | (d, r) => if forallb is_space r then Some d else None
  end.

(** [re.search(r'(\d+)\s*$', s)]: [start()] and group 1 of the match. *)
Fixpoint search_number (s : text) : option (nat * text) :=
  match match_number s with
  | Some d => Some (O, d)
  | None =>
      match s with
      | [] => None
      | _ :: s' =>
          match search_number s' with
          | Some (i, d) => Some (S i, d)
          | None => None
          end
      end
  end.

Definition name_map : list (text * text) :=
  [(lit "INTRO", lit "Intro"); (lit "VERSE", lit "Verse");
   (lit "CHORUS", lit "Chorus");
   (lit "PRE CHORUS", lit "Pre Chorus"); (lit "PRE-CHORUS", lit "Pre Chorus");
   (lit "BRIDGE", lit "Bridge"); (lit "BREAKDOWN", lit "Breakdown");
   (lit "INTERLUDE", lit "Interlude"); (lit "INSTRUMENTAL", lit "Instrumental");
   (lit "VAMP", lit "Vamp"); (lit "TAG", lit "Tag"); (lit "REFRAIN", lit "Refrain");
   (lit "ENDING", lit "Ending"); (lit "OUTRO", lit "Outro");
   (lit "TURNAROUND", lit "Turnaround");
   (lit "HALF-CHORUS", lit "Half-Chorus")].

(** [name_map.get(k, default)] *)
Fixpoint map_get (m : list (text * text)) (k : text) (default : text) : text :=
  match m with
  | [] => default
  | (k', v) :: m' => if eqb k k' then v else map_get m' k default
  end.

Definition format_section_name (name : text) : text :=
  let name := strip name in
  let name := strip (sub_rule_end name) in
  let num_match := search_number name in
  let number :=
    match num_match with
    | Some (_, d) => lit " " ++ d
    | None => []
    end in
  let name :=
    match num_match with
    | Some (start, _) => strip (firstn start name)
    | None => name
    end in
  let upper_name := upper name in
  let formatted := map_get name_map upper_name (title name) in
  formatted ++ number.

(* ================================================================== *)
(** ** Section builder *)

Definition texts_of (r : Role) (classified : list (Word * Role)) : list text :=
  map (fun wc => w_text (fst wc)) (filter (fun wc => Role_eqb (snd wc) r) classified).

Definition words_of (r : Role) (classified : list (Word * Role)) : list (Word * Q) :=
  map (fun wc => (fst wc, w_x0 (fst wc)))
      (filter (fun wc => Role_eqb (snd wc) r) classified).

(** A row that starts with a badge followed by a section name. *)
Definition is_header (classified : list (Word * Role)) : bool :=
  match classified with
  | (_, first_class) :: (_, second_class) :: _ =>
      Role_eqb first_class badge && Role_eqb second_class section_name
  | _ => false
  end.

(** [sections.append(current_section)] when it is open and has lines. *)
Definition save_section (sections : list Section) (current_section : option Section)
    : list Section :=
  match current_section with
  | Some cs => if nonempty (sec_lines cs) then sections ++ [cs] else sections
  | None => sections
  end.

(** One iteration of the loop over rows: the state is [sections] and
    [current_section]. *)
Definition row_step (page : option Page)
    (st : list Section * option Section) (line_words : list Word)
    : list Section * option Section :=
  let '(sections, current_section) := st in
  match line_words with
  | [] => st
  | _ =>
      let classified := map (fun w => (w, classify_word w)) line_words in
      if is_header classified then
        let sections := save_section sections current_section in
        let name := format_section_name (join (lit " ") (texts_of section_name classified)) in
        let dynamics_parts := texts_of dynamics classified in
        let dyn :=
          if nonempty dynamics_parts then Some (join (lit " ") dynamics_parts)
          else None in
        (sections, Some (mkSection name dyn []))
      else
        match current_section with
        | None => st
        | Some cs =>
            let raw_chords := words_of chord classified in
            let modifiers := words_of chord_modifier classified in
            let bass_notes := words_of bass_note classified in
            let lyrics := words_of lyric classified in
            let dynamics_words := texts_of dynamics classified in
            let chords := build_chords page raw_chords modifiers bass_notes in
            if nonempty dynamics_words && negb (nonempty chords) && negb (nonempty lyrics)
            then
              let dyn_text := join (lit " ") dynamics_words in
              if negb (nonempty (sec_lines cs)) then
                let dyn :=
                  match sec_dynamics cs with
                  | Some (c :: d) => (c :: d) ++ lit " - " ++ dyn_text
                  | _ => dyn_text
                  end in
                (sections, Some (mkSection (sec_name cs) (Some dyn) (sec_lines cs)))
              else
                (sections,
                 Some (mkSection (sec_name cs) (sec_dynamics cs)
                         (sec_lines cs ++ [DynamicsLine dyn_text])))
            else if nonempty chords || nonempty lyrics then
              let line_data :=
                ChordLine (line_chords chords)
                          (map (fun l => mkSpan (w_text (fst l)) (snd l)) lyrics) in
              (sections,
               Some (mkSection (sec_name cs) (sec_dynamics cs)
                       (sec_lines cs ++ [line_data])))
            else st
        end
  end.

(* ================================================================== *)
(** ** Line merger *)

(** The [while i < len(section['lines'])] loop: the state is [i] and
    [merged_lines].  Each iteration advances [i], so [len] iterations
    are enough. *)
Fixpoint merge_loop (fuel : nat) (lines : list Line) (i : nat)
    (merged_lines : list Line) : list Line :=
  match fuel with
  | O => merged_lines
  | S fuel' =>
      match nth_error lines i with
      | None => merged_lines
      | Some line =>
          match line with
          | DynamicsLine _ => merge_loop fuel' lines (i + 1) (merged_lines ++ [line])
          | ChordLine chords lyrics =>
              let pass := merge_loop fuel' lines (i + 1) (merged_lines ++ [line]) in
              if nonempty chords && negb (nonempty lyrics)
                 && Nat.ltb (i + 1) (List.length lines)
              then
                match nth_error lines (i + 1) with
                | Some (ChordLine next_chords next_lyrics) =>
                    if nonempty next_lyrics then
                      merge_loop fuel' lines (i + 2)
                        (merged_lines ++ [ChordLine (chords ++ next_chords) next_lyrics])
                    else pass
                | _ => pass
                end
              else pass
          end
      end
  end.

Definition merge_lines (lines : list Line) : list Line :=
  merge_loop (List.length lines) lines 0 [].

(** [parse_column]; the argument [col_start_x] is not used by the code. *)
Definition parse_column (words : list Word) (col_start_x : Q) (page : option Page)
    : list Section :=
  match words with
  | [] => []
  | _ =>
      let lines := group_lines words in
      let '(sections, current_section) := fold_left (row_step page) lines ([], None) in
      let sections := save_section sections current_section in
      map (fun s => mkSection (sec_name s) (sec_dynamics s) (merge_lines (sec_lines s)))
          sections
  end.

(* ================================================================== *)
(** ** Header-region filter and column splitter *)

Definition Qmax_py (a b : Q) : Q := if Qltb a b then b else a.

(** The scan for roadmap badges on the first page; it stops at the first
    word below 150. *)
Fixpoint roadmap_scan (words : list Word) (roadmap_bottom : Q) : Q :=
  match words with
  | [] => roadmap_bottom
  | w :: rest =>
      if Qltb 150 (w_top w) then roadmap_bottom
      else
        if is_bold_font (w_fontname w) && (Qle_bool 9 (w_size w) && Qle_bool (w_size w) 11.5)
           && Qltb 50 (w_top w)
        then roadmap_scan rest (Qmax_py roadmap_bottom (w_bottom w + 10))
        else roadmap_scan rest roadmap_bottom
  end.

Definition skip_markers : list text :=
  [lit "Page:"; lit "MultiTracks"; lit "mtID"; lit "Writers:"; lit "Charts"].

Definition keep_word (min_y : Q) (title : text) (w : Word) : bool :=
  if Qltb (w_top w) min_y then false
  else
    let t := strip (w_text w) in
    if negb (nonempty t) then false
    else if existsb (fun skip => contains skip t) skip_markers then false
    else if startswith [169%N] t || startswith [8471%N] t then false
    else if contains (lit "a product of") (lower t) then false
    else if eqb t title && Qltb (w_top w) 60 then false
    else true.

(** [min((w['x0'] for w in ws), default=d)] *)
Definition min_x0 (ws : list Word) (default : Q) : Q :=
  match ws with
  | [] => default
  | w :: rest =>
      fold_left (fun m v => if Qltb (w_x0 v) m then w_x0 v else m) rest (w_x0 w)
  end.

Definition parse_page (page : Page) (page_num : nat) (title : text) : list Section :=
  let words := page_words page in
  match words with
  | [] => []
  | _ =>
      let mid_x := page_width page / 2 in
      let min_y :=
        match page_num with
        | O => Qmax_py (roadmap_scan words 70) 70
        | _ => 45
        end in
      let filtered := filter (keep_word min_y title) words in
      match filtered with
      | [] => []
      | _ =>
          let left_words := filter (fun w => Qltb (w_x0 w) (mid_x - 30)) filtered in
          let right_words := filter (fun w => Qle_bool (mid_x - 30) (w_x0 w)) filtered in
          let left_start_x := min_x0 left_words 40 in
          let right_start_x := min_x0 right_words mid_x in
          parse_column left_words left_start_x (Some page)
          ++ parse_column right_words right_start_x (Some page)
      end
  end.

(* ================================================================== *)
(** ** ChordPro emitter *)

Definition bracket (t : text) : text := lit "[" ++ t ++ lit "]".

Definition span_x_le (a b : Span) : bool := Qle_bool (sp_x a) (sp_x b).

(** [while ci < len(chords) and chords[ci]['x'] <= lyric['x'] + 15]: the
    state is [ci] and [result]; each iteration advances [ci]. *)
Fixpoint take_chords (fuel : nat) (chords : list Span) (limit : Q)
    (ci : nat) (result : list text) : nat * list text :=
  match fuel with
  | O => (ci, result)
  | S fuel' =>
      match nth_error chords ci with
      | Some c =>
          if Qle_bool (sp_x c) limit
          then take_chords fuel' chords limit (ci + 1) (result ++ [bracket (sp_text c)])
          else (ci, result)
      | None => (ci, result)
      end
  end.

(** [while ci < len(chords)] *)
Fixpoint drain_chords (fuel : nat) (chords : list Span)
    (ci : nat) (result : list text) : list text :=
  match fuel with
  | O => result
  | S fuel' =>
      match nth_error chords ci with
      | Some c => drain_chords fuel' chords (ci + 1) (result ++ [bracket (sp_text c)])
      | None => result
      end
  end.

Definition lyric_step (chords : list Span) (st : nat * list text) (lyric : Span)
    : nat * list text :=
  let '(ci, result) := st in
  let '(ci, result) :=
    take_chords (List.length chords) chords (sp_x lyric + 15) ci result in
  (ci, result ++ [sp_text lyric]).

(** The items of a mixed line, before they are joined. *)
Definition merge_by_x (chords lyrics : list Span) : list text :=
  let chords := sorted span_x_le chords in
  let lyrics := sorted span_x_le lyrics in
  let '(ci, result) := fold_left (lyric_step chords) lyrics (O, []) in
  drain_chords (List.length chords) chords ci result.

(** [build_line]; a line without the keys has [chords = lyrics = []]. *)
Definition build_line (line_data : Line) : text :=
  let '(chords, lyrics) :=
    match line_data with
    | ChordLine chords lyrics => (chords, lyrics)
    | DynamicsLine _ => ([], [])
    end in
  match chords, lyrics with
  | [], [] => []
  | [], _ => join (lit " ") (map sp_text (sorted span_x_le lyrics))
  | _, [] => join (lit " ") (map (fun c => bracket (sp_text c)) (sorted span_x_le chords))
  | _, _ => join (lit " ") (merge_by_x chords lyrics)
  end.

(* ================================================================== *)
(** ** Conversion *)

Definition Pdf := list Page.

(** [extract_metadata]: [pdf.pages[0]] raises on a document without pages. *)
Definition extract_metadata (pdf : Pdf) : option Dict :=
  match pdf with
  | [] => None
  | page :: _ => Some (extract_metadata_text (page_text page))
  end.

Definition tag (name : string) (value : text) : text :=
  lit "{" ++ lit name ++ lit ": " ++ value ++ lit "}".

Fixpoint parse_pages (pages : list Page) (page_num : nat) (title : text) : list Section :=
  match pages with
  | [] => []
  | page :: rest => parse_page page page_num title ++ parse_pages rest (S page_num) title
  end.

Definition emit_line (line_data : Line) : list text :=
  match line_data with
  | DynamicsLine t => [tag "dynamics" t]
  | _ =>
      match build_line line_data with
      | [] => []
      | out => [out]
      end
  end.

Definition emit_section (section : Section) : list text :=
  [tag "section" (sec_name section)]
  ++ match sec_dynamics section with
     | Some (c :: d) => [tag "dynamics" (c :: d)]
     | _ => []
     end
  ++ flat_map emit_line (sec_lines section)
  ++ [[]].

Definition optional_tag (metadata : Dict) (key : string) : list text :=
  match dict_get metadata key with
  | Some (c :: v) => [tag key (c :: v)]
  | _ => []
  end.

Definition emit_header (metadata : Dict) : list text :=
  [tag "title" (dict_get_default metadata "title" (lit "Untitled"))]
  ++ optional_tag metadata "artist"
  ++ optional_tag metadata "key"
  ++ optional_tag metadata "tempo"
  ++ optional_tag metadata "time"
  ++ [[]].

(** [convert_pdf]: [pdf] is the document that [pdfplumber.open(pdf_path)]
    yields; the path has no other use. *)
Definition convert_pdf (pdf_path : text) (pdf : Pdf) : option text :=
  match extract_metadata pdf with
  | None => None
  | Some metadata =>
      let title := dict_get_default metadata "title" [] in
      let all_sections := parse_pages pdf 0 title in
      Some (join [10%N] (emit_header metadata ++ flat_map emit_section all_sections))
  end.

(* ================================================================== *)
(** ** Sample inputs *)

Definition regular_word (s : Q) : Word :=
  mkWord (lit "softly") 40 100 112 (lit "Helvetica-Regular") s.

Definition amazing_grace_head : text :=
  lit "Amazing Grace" ++ [10%N]
  ++ lit "John Newton Key: G Tempo: 90 Time: 3/4" ++ [10%N].

(** A one-page document whose first page has no text and no words. *)
Definition blank_pdf : Pdf := [mkPage 612 [] [] []].

Definition bold_word (t : text) (x top size : Q) : Word :=
  mkWord t x top (top + 12) (lit "Helvetica-Bold") size.

(** A header row "V CHORUS" and below it the chord B with the bass
    note /A-flat, 12px to its right. *)
Definition flat_bass_words : list Word :=
  [bold_word (lit "V") 40 100 10; bold_word (lit "CHORUS") 60 100 15;
   bold_word (lit "B") 40 120 13.6;
   bold_word (lit "/A" ++ [flat_sign]) 52 120 13.6].

(** One chord G at x = 10. *)
Definition one_chord : list (Word * Q) :=
  [(bold_word (lit "G") 10 120 13.6, 10)].


(** A header row whose section name is a lone hyphen, and a lyric row;
    the page is far enough down to lie below the roadmap strip. *)
Definition nameless_words : list Word :=
  [bold_word (lit "V") 40 200 10; bold_word (lit "-") 60 200 15;
   mkWord (lit "grace") 40 220 232 (lit "Helvetica-Regular") 13.6].

Definition nameless_pdf : Pdf := [mkPage 612 nameless_words [] []].



(* ================================================================== *)
(** ** The interleaving law, as the specification words it *)

Definition within (lyric : Span) (c : Span) : bool :=
  Qle_bool (sp_x c) (sp_x lyric + 15).

(** For each lyric in order: every chord not yet consumed whose x is at
    most the lyric's x + 15, in brackets, then the lyric text; the chords
    that remain after the last lyric follow. *)
Fixpoint interleave_spec (chords lyrics : list Span) : list text :=
  match lyrics with
  | [] => map (fun c => bracket (sp_text c)) chords
  | ly :: rest =>
      map (fun c => bracket (sp_text c)) (filter (within ly) chords)
      ++ [sp_text ly]
      ++ interleave_spec (filter (fun c => negb (within ly c)) chords) rest
  end.

(* ================================================================== *)
(** ** The line merger, as the specification words it *)

(** A line that has chords but no lyrics. *)
Definition chord_only (l : Line) : bool :=
  match l with
  | ChordLine (_ :: _) [] => true
  | _ => false
  end.

(** A line that is not a dynamics marker and has non-empty lyrics. *)
Definition with_lyrics (l : Line) : bool :=
  match l with
  | ChordLine _ (_ :: _) => true
  | _ => false
  end.

Definition chords_of (l : Line) : list Span :=
  match l with ChordLine chords _ => chords | DynamicsLine _ => [] end.

Definition lyrics_of (l : Line) : list Span :=
  match l with ChordLine _ lyrics => lyrics | DynamicsLine _ => [] end.

(** Chords: this line's chords followed by the next line's chords;
    lyrics: the next line's lyrics. *)
Definition merged (this next : Line) : Line :=
  ChordLine (chords_of this ++ chords_of next) (lyrics_of next).

Fixpoint merge_spec (lines : list Line) : list Line :=
  match lines with
  | [] => []
  | this :: rest =>
      match rest with
      | next :: rest' =>
          if chord_only this && with_lyrics next
          then merged this next :: merge_spec rest'
          else this :: merge_spec rest
      | [] => [this]
      end
  end.

(* ================================================================== *)
(** ** Attachment, as the specification words it *)

(** The tokens of [tokens], in their order, whose closest chord to the
    left within [max_dist] is at [chord_x]. *)
Definition attached_to (max_dist : Q) (raw_chords : list (Word * Q)) (chord_x : Q)
    (tokens : list (Word * Q)) : list (Word * Q) :=
  filter
    (fun m =>
       match nearest_left max_dist raw_chords (snd m) with
       | Some (best_chord_x, _) => Qeq_bool chord_x best_chord_x
       | None => false
       end)
    tokens.

Definition texts (tokens : list (Word * Q)) : list text :=
  map (fun m => w_text (fst m)) tokens.

Definition last_text (tokens : list (Word * Q)) : option text :=
  match rev tokens with
  | [] => None
  | b :: _ => Some (w_text (fst b))
  end.

Definition or_empty {A} (o : option (list A)) : list A :=
  match o with Some l => l | None => [] end.


(* ================================================================== *)
(** ** Section names: auxiliary notions *)

(** [name_map.get(name.upper(), name.title())] *)
Definition formatted_of (name : text) : text :=
  map_get name_map (upper name) (title name).

(** The first, respectively the last, character of [t] satisfies [p]. *)
Definition head_is (p : char -> bool) (t : text) : bool :=
  match t with
  | c :: _ => p c
  | [] => false
  end.

Fixpoint last_is (p : char -> bool) (t : text) : bool :=
  match t with
  | [] => false
  | [c] => p c
  | _ :: t' => last_is p t'
  end.

(** The character that [str.title] puts in place of [c]. *)
Definition title_char (prev_cased : bool) (c : char) : char :=
  if is_cased c then (if prev_cased then lower_char c else upper_char c) else c.

(* ================================================================== *)
(** ** Notions used by the further properties *)

Definition is_dynamics_line (l : Line) : bool :=
  match l with DynamicsLine _ => true | ChordLine _ _ => false end.

(** The classified tokens of a row, as [parse_column] builds them. *)
Definition classify_row (line_words : list Word) : list (Word * Role) :=
  map (fun w => (w, classify_word w)) line_words.

(** A lyric row: one regular word at chord size. *)
Definition lyric_row : list Word :=
  [mkWord (lit "grace") 40 220 232 (lit "Helvetica-Regular") 13.6].

(* ================================================================== *)
(** ** The library indexer (scripts/build_index.py) *)

(** A literal of a pattern compiled with [re.IGNORECASE] matches the
    letters that differ from it by case only; [p] is in lower case.  The
    result is the text matched and what follows it. *)
Fixpoint after_prefix_nocase (p s : text) : option (text * text) :=
  match p, s with
  | [], _ => Some ([], s)
  | x :: p', y :: s' =>
      if (lower_char y =? x)%N then
        match after_prefix_nocase p' s' with
        | Some (m, r) => Some (y :: m, r)
        | None => None
        end
      else None
  | _ :: _, [] => None
  end.

(** [(.+?)\}] once the group has its first character: the group grows,
    over anything but a newline, until a closing brace follows it. *)
Fixpoint lazy_rest (group_rev : text) (s : text) : option text :=
  match s with
  | [] => None
  | x :: s' =>
      if (x =? 125)%N then Some (rev group_rev)
      else if (x =? 10)%N then None
      else lazy_rest (x :: group_rev) s'
  end.

Definition lazy_group (s : text) : option text :=
  match s with
  | [] => None
  | c :: s' => if (c =? 10)%N then None else lazy_rest [c] s'
  end.

(** [\s*(.+?)\}]: the greedy [\s*] takes white space as long as the rest
    matches after it, and gives it back otherwise. *)
Fixpoint value_match (s : text) : option text :=
  match s with
  | [] => None
  | c :: s' =>
      if is_space c then
        match value_match s' with
        | Some g => Some g
        | None => lazy_group s
        end
      else lazy_group s
  end.

(** [\s*:\s*(.+?)\}] *)
Definition tail_match (r : text) : option text :=
  match lstrip r with
  | c :: r' => if (c =? 58)%N then value_match r' else None
  | [] => None
  end.

Definition index_tags : list text := [lit "title"; lit "artist"; lit "key"].

(** The alternation [(title|artist|key)] followed by the rest of the
    pattern: groups 1 and 2 of the first alternative that matches. *)
Fixpoint match_tags (tags : list text) (s : text) : option (text * text) :=
  match tags with
  | [] => None
  | t :: tags' =>
      match after_prefix_nocase t s with
      | Some (g1, r) =>
          match tail_match r with
          | Some g2 => Some (g1, g2)
          | None => match_tags tags' s
          end
      | None => match_tags tags' s
      end
  end.

(** [re.match(r'\{(title|artist|key)\s*:\s*(.+?)\}', line, re.IGNORECASE)] *)
Definition index_match (line : text) : option (text * text) :=
  match line with
  | c :: s => if (c =? 123)%N then match_tags index_tags s else None
  | [] => None
  end.

(** The entry that a line adds to the metadata:
    [(match.group(1).lower(), match.group(2).strip())]. *)
Definition index_line (line : text) : option (text * text) :=
  match index_match line with
  | Some (g1, g2) => Some (lower g1, strip g2)
  | None => None
  end.

(** A dictionary with text keys. *)
Fixpoint tdict_get (d : list (text * text)) (k : text) : option text :=
  match d with
  | [] => None
  | (k', v) :: d' => if eqb k k' then Some v else tdict_get d' k
  end.

Fixpoint tdict_set (d : list (text * text)) (k v : text) : list (text * text) :=
  match d with
  | [] => [(k, v)]
  | (k', v') :: d' =>
      if eqb k k' then (k', v) :: d' else (k', v') :: tdict_set d' k v
  end.

Definition index_step (metadata : list (text * text)) (line : text)
    : list (text * text) :=
  match index_line line with
  | Some (k, v) => tdict_set metadata k v
  | None => metadata
  end.

(** [extract_metadata] of build_index.py: the first ten lines are read. *)
Definition index_metadata (content : text) : list (text * text) :=
  fold_left index_step (firstn 10 (split 10%N content)) [].

(** The test of [extract_metadata] for a second line that continues the
    title: it starts with a closing bracket, or the first line has an
    opening bracket that is not closed. *)
Definition title_continues (first_stripped second_stripped : text) : bool :=
  startswith (lit ")") second_stripped || startswith (lit "]") second_stripped
  || (Nat.ltb (count 41%N first_stripped) (count 40%N first_stripped)
      || Nat.ltb (count 93%N first_stripped) (count 91%N first_stripped)).

Definition has_marker (line : text) : bool :=
  contains (lit "Page:") line || contains (lit "Key:") line.

(** All words of [row] have their top within 6 of [y]. *)
Definition row_near (y : Q) (row : list Word) : Prop :=
  forall w, In w row -> (Qabs (w_top w - y) <= 6)%Q.

(** What the line grouper maintains: the rows completed and the row
    under construction each lie within 6 of a reference y; as long as
    the reference is 0.0, every word of the row has top 0.0. *)
Definition group_inv (st : GroupState) : Prop :=
  Forall (fun row => exists y, row_near y row) (g_lines st) /\
  match g_current_y st with
  | None => g_current_line st = []
  | Some y =>
      row_near y (g_current_line st) /\
      ((y == 0)%Q -> forall w, In w (g_current_line st) -> (w_top w == 0)%Q)
  end.

(** The page with its words replaced by those that satisfy [keep]. *)
Definition restrict_words (keep : Word -> bool) (page : Page) : Page :=
  mkPage (page_width page) (filter keep (page_words page)) (page_curves page)
         (page_text page).

(* ================================================================== *)
(** * Properties *)

(** ** Comparisons on rationals *)

Lemma Qltb_lt a b : Qltb a b = true <-> (a < b)%Q.
Proof.
  unfold Qltb. rewrite negb_true_iff.
  destruct (Qle_bool b a) eqn:E.
  - apply Qle_bool_iff in E. split; [discriminate | intro; lra].
  - split; [intros _ | reflexivity].
    destruct (Qlt_le_dec a b) as [H|H]; [exact H|].
    apply Qle_bool_iff in H. congruence.
Qed.

Lemma Qltb_ge a b : Qltb a b = false <-> (b <= a)%Q.
Proof.
  unfold Qltb. rewrite negb_false_iff. apply Qle_bool_iff.
Qed.

Lemma Qleb_le a b : Qle_bool a b = true <-> (a <= b)%Q.
Proof. apply Qle_bool_iff. Qed.

Lemma Qleb_gt a b : Qle_bool a b = false <-> (b < a)%Q.
Proof.
  rewrite <- Qltb_lt. unfold Qltb. rewrite negb_true_iff. reflexivity.
Qed.

(* ================================================================== *)
(** ** Token classifier: the dynamics and lyric ranges *)

(** A non-bold token of size exactly 13.0 is a lyric, not dynamics. *)
Lemma classify_13_is_lyric :
  is_bold_font (w_fontname (regular_word 13)) = false /\
  classify_word (regular_word 13) = lyric /\
  classify_word (regular_word 13) <> dynamics.
Proof. vm_compute. repeat split; discriminate. Qed.

(** C2 (amended): a token that is not bold and whose size s satisfies
    12.0 <= s < 13.0 classifies as dynamics (every earlier rule requires a
    bold font, so none of them matches); a non-bold token with
    13.0 <= s <= 14.0, in particular one of size exactly 13.0, classifies
    as lyric. *)
Theorem classify_nonbold_dynamics_lyric (w : Word) :
  is_bold_font (w_fontname w) = false ->
  ((12 <= w_size w)%Q -> (w_size w < 13)%Q -> classify_word w = dynamics) /\
  ((13 <= w_size w)%Q -> (w_size w <= 14)%Q -> classify_word w = lyric).
Proof.
  intros Hb. unfold classify_word, is_regular_font, between.
  rewrite Hb. cbn [andb orb negb]. rewrite orb_true_r. cbn [andb].
  split; intros H1 H2.
  - apply Qleb_le in H1. apply Qltb_lt in H2. rewrite H1, H2. reflexivity.
  - assert (Qltb (w_size w) 13 = false) as -> by (apply Qltb_ge; exact H1).
    apply Qleb_le in H1, H2. rewrite H1, H2, andb_false_r. reflexivity.
Qed.

Lemma classify_nonbold_dynamics_lyric_witness :
  classify_word (regular_word 12.5) = dynamics /\
  classify_word (regular_word 13) = lyric.
Proof.
  destruct (@classify_nonbold_dynamics_lyric (regular_word 12.5) eq_refl) as [H _].
  destruct (@classify_nonbold_dynamics_lyric (regular_word 13) eq_refl) as [_ H'].
  split.
  - apply H; vm_compute; congruence.
  - apply H'; vm_compute; congruence.
Defined.

(* ================================================================== *)
(** ** Metadata extractor *)

Lemma after_prefix_startswith p s r :
  after_prefix p s = Some r -> startswith p s = true.
Proof.
  revert s; induction p as [|x p IH]; intros [|y s]; simpl; try congruence.
  destruct (x =? y)%N; [apply IH | discriminate].
Qed.

Lemma match_time_prefix s g :
  match_time s = Some g -> startswith (lit "Time:") s = true.
Proof.
  unfold match_time.
  destruct (after_prefix (lit "Time:") s) as [r|] eqn:E; [|discriminate].
  intros _. exact (after_prefix_startswith _ _ E).
Qed.

Lemma re_search_contains (m : text -> option text) p s g :
  (forall s' g', m s' = Some g' -> startswith p s' = true) ->
  re_search m s = Some g -> contains p s = true.
Proof.
  intros Hm. induction s as [|c s IH]; simpl.
  - destruct (m []) eqn:E; [|discriminate].
    intros _. rewrite (Hm _ _ E). reflexivity.
  - destruct (m (c :: s)) eqn:E.
    + intros _. rewrite (Hm _ _ E). reflexivity.
    + intros H. rewrite (IH H). apply orb_true_r.
Qed.

(** C6: the first page text "Amazing Grace\nJohn Newton Key: G Tempo: 90
    Time: 3/4\n..." (whatever follows the second newline) yields title
    "Amazing Grace", artist "John Newton", key "G", tempo "90" and time
    "3/4"; and a text without any "Time:" marker yields time "4/4". *)
Theorem metadata_amazing_grace :
  (forall rest,
     let md := extract_metadata_text (amazing_grace_head ++ rest) in
     dict_get md "title" = Some (lit "Amazing Grace") /\
     dict_get md "artist" = Some (lit "John Newton") /\
     dict_get md "key" = Some (lit "G") /\
     dict_get md "tempo" = Some (lit "90") /\
     dict_get md "time" = Some (lit "3/4")) /\
  (forall t,
     contains (lit "Time:") t = false ->
     dict_get (extract_metadata_text t) "time" = Some (lit "4/4")).
Proof.
  split.
  - intros rest. vm_compute. repeat split; reflexivity.
  - intros t Ht. unfold extract_metadata_text.
    destruct (scan_title _ _ _ _) as [title_parts artist].
    destruct (re_search match_time t) as [g|] eqn:E.
    + apply (re_search_contains match_time (lit "Time:")) in E;
        [congruence | exact match_time_prefix].
    + destruct (re_search match_key t); destruct (re_search match_tempo t);
        reflexivity.
Qed.

Lemma metadata_amazing_grace_witness :
  dict_get (extract_metadata_text (lit "Amazing Grace")) "time" = Some (lit "4/4").
Proof.
  destruct metadata_amazing_grace as [_ H]. apply H. reflexivity.
Defined.

(* ================================================================== *)
(** ** The title tag *)

Lemma extract_metadata_title t :
  exists v, dict_get (extract_metadata_text t) "title" = Some v.
Proof.
  unfold extract_metadata_text.
  destruct (scan_title _ _ _ _) as [title_parts artist].
  destruct (re_search match_key t); destruct (re_search match_tempo t);
    destruct (re_search match_time t); eexists; reflexivity.
Qed.

Lemma startswith_app p a b : startswith p a = true -> startswith p (a ++ b) = true.
Proof.
  revert a; induction p as [|x p IH]; intros [|y a]; simpl; try congruence.
  intros H. apply andb_true_iff in H as [H1 H2]. rewrite H1. simpl. auto.
Qed.

Lemma startswith_join p sep a l :
  startswith p a = true -> startswith p (join sep (a :: l)) = true.
Proof.
  intros H. destruct l; simpl; [exact H | apply startswith_app; exact H].
Qed.

(** With no text on the first page the title tag has an empty value; the
    name of the source file does not occur in the output. *)
Lemma blank_title_is_empty :
  dict_get (extract_metadata_text (page_text (hd (mkPage 0 [] [] []) blank_pdf))) "title"
    = Some [] /\
  convert_pdf (lit "hymn.pdf") blank_pdf
    = Some (lit "{title: }" ++ [10%N] ++ lit "{time: 4/4}" ++ [10%N]) /\
  (forall out, convert_pdf (lit "hymn.pdf") blank_pdf = Some out ->
               contains (lit "hymn") out = false).
Proof.
  split; [reflexivity | split; [reflexivity |]].
  intros out H. vm_compute in H. injection H as <-. reflexivity.
Qed.

(** C5 (amended): for every document with a first page, also one whose
    first page yields no title text, the conversion does not fail and its
    output begins with a title tag; the output is the same whatever the
    name of the source file, which is never consulted. *)
Theorem convert_title_tag (pdf_path : text) (page : Page) (rest : list Page) :
  exists out,
    convert_pdf pdf_path (page :: rest) = Some out /\
    startswith (lit "{title: ") out = true /\
    forall other_path, convert_pdf other_path (page :: rest) = Some out.
Proof.
  unfold convert_pdf. cbn [extract_metadata].
  eexists. split; [reflexivity | split; [| reflexivity]].
  unfold emit_header. cbn [app]. apply startswith_join.
  reflexivity.
Qed.

(* ================================================================== *)
(** ** Stable sorting *)

Section SortingFacts.
Variable A : Type.
Variable le : A -> A -> bool.
Hypothesis le_total : forall a b, le a b = false -> le b a = true.
Hypothesis le_trans : forall a b c, le a b = true -> le b c = true -> le a c = true.

Local Abbreviation ascending := (StronglySorted (fun a b => le a b = true)).

Lemma insert_sorted_Forall (P : A -> Prop) a l :
  P a -> Forall P l -> Forall P (insert_sorted le a l).
Proof.
  intros Ha Hl. induction Hl as [|b l Hb Hl IH]; simpl.
  - constructor; [exact Ha | constructor].
  - destruct (le a b); repeat constructor; auto.
Qed.

Lemma insert_sorted_ascending a l :
  ascending l -> ascending (insert_sorted le a l).
Proof.
  intros Hl. induction Hl as [|b l Hl IH Hb]; simpl.
  - repeat constructor.
  - destruct (le a b) eqn:E.
    + constructor; [constructor; assumption |].
      constructor; [exact E |].
      eapply Forall_impl; [| exact Hb]. intros c Hc. eapply le_trans; eauto.
    + constructor; [exact IH |].
      apply insert_sorted_Forall; [apply le_total; exact E | exact Hb].
Qed.

Lemma sorted_ascending l : ascending (sorted le l).
Proof.
  induction l as [|a l IH]; simpl.
  - constructor.
  - apply insert_sorted_ascending. exact IH.
Qed.
End SortingFacts.

Lemma span_x_le_total a b : span_x_le a b = false -> span_x_le b a = true.
Proof.
  unfold span_x_le. rewrite Qleb_gt, Qleb_le. intros; lra.
Qed.

Lemma span_x_le_trans a b c :
  span_x_le a b = true -> span_x_le b c = true -> span_x_le a c = true.
Proof.
  unfold span_x_le. rewrite !Qleb_le. intros; lra.
Qed.

(* ================================================================== *)
(** ** ChordPro emitter: the interleaving law *)

Lemma nth_error_at_length {A} (pre rest : list A) :
  nth_error (pre ++ rest) (List.length pre) = hd_error rest.
Proof.
  induction pre as [|a pre IH]; simpl; [destruct rest; reflexivity | exact IH].
Qed.

Lemma length_snoc {A} (pre : list A) (a : A) :
  List.length (pre ++ [a]) = (List.length pre + 1)%nat.
Proof. rewrite length_app. reflexivity. Qed.

Lemma app_snoc {A} (pre : list A) (a : A) rest :
  pre ++ a :: rest = (pre ++ [a]) ++ rest.
Proof. rewrite <- app_assoc. reflexivity. Qed.

Lemma take_chords_span limit fuel :
  forall pre rest result,
    (List.length rest <= fuel)%nat ->
    take_chords fuel (pre ++ rest) limit (List.length pre) result =
    ((List.length pre
      + List.length (fst (span (fun c => Qle_bool (sp_x c) limit) rest)))%nat,
     result ++ map (fun c => bracket (sp_text c))
                   (fst (span (fun c => Qle_bool (sp_x c) limit) rest))).
Proof.
  induction fuel as [|fuel IH]; intros pre rest result Hlen.
  - destruct rest; [|simpl in Hlen; lia].
    simpl. rewrite Nat.add_0_r, app_nil_r. reflexivity.
  - cbn [take_chords]. rewrite nth_error_at_length.
    destruct rest as [|c rest]; cbn [hd_error].
    + simpl. rewrite Nat.add_0_r, app_nil_r. reflexivity.
    + cbn [span]. destruct (Qle_bool (sp_x c) limit).
      * rewrite (app_snoc pre c rest), <- (length_snoc pre c).
        rewrite IH by (simpl in Hlen; lia).
        destruct (span _ rest) as [now later]. cbn [fst map List.length].
        rewrite length_snoc, <- app_assoc. f_equal. lia.
      * simpl. rewrite Nat.add_0_r, app_nil_r. reflexivity.
Qed.

Lemma drain_chords_all fuel :
  forall pre rest result,
    (List.length rest <= fuel)%nat ->
    drain_chords fuel (pre ++ rest) (List.length pre) result =
    result ++ map (fun c => bracket (sp_text c)) rest.
Proof.
  induction fuel as [|fuel IH]; intros pre rest result Hlen.
  - destruct rest; [|simpl in Hlen; lia]. simpl. rewrite app_nil_r. reflexivity.
  - cbn [drain_chords]. rewrite nth_error_at_length.
    destruct rest as [|c rest]; cbn [hd_error].
    + simpl. rewrite app_nil_r. reflexivity.
    + rewrite (app_snoc pre c rest), <- (length_snoc pre c).
      rewrite IH by (simpl in Hlen; lia).
      rewrite <- app_assoc. reflexivity.
Qed.

Lemma span_app {A} (p : A -> bool) l :
  fst (span p l) ++ snd (span p l) = l.
Proof.
  induction l as [|a l IH]; simpl; [reflexivity |].
  destruct (p a); [|reflexivity].
  destruct (span p l); simpl in *. congruence.
Qed.

(** On an ascending list, the chords within a limit are a prefix. *)
Lemma span_ascending {A} (R : A -> A -> Prop) (p : A -> bool) l :
  (forall a b, R a b -> p b = true -> p a = true) ->
  StronglySorted R l ->
  fst (span p l) = filter p l /\
  snd (span p l) = filter (fun c => negb (p c)) l /\
  StronglySorted R (snd (span p l)).
Proof.
  intros Hp Hl. induction Hl as [|a l Hl IH Ha]; simpl.
  - repeat split. constructor.
  - destruct (p a) eqn:E; simpl.
    + destruct (span p l) as [now later]; simpl in *.
      destruct IH as (-> & -> & IH). repeat split. exact IH.
    + assert (Hnone : forall b, In b l -> p b = false).
      { intros b Hb. destruct (p b) eqn:Eb; [|reflexivity].
        rewrite Forall_forall in Ha. rewrite (Hp a b (Ha b Hb) Eb) in E.
        discriminate. }
      repeat split.
      * clear -Hnone. induction l as [|b l IH]; simpl; [reflexivity |].
        rewrite (Hnone b (or_introl eq_refl)). apply IH.
        intros; apply Hnone; right; assumption.
      * f_equal. clear -Hnone. induction l as [|b l IH]; simpl; [reflexivity |].
        rewrite (Hnone b (or_introl eq_refl)). simpl. f_equal. apply IH.
        intros; apply Hnone; right; assumption.
      * constructor; assumption.
Qed.

Lemma within_downward ly a b :
  span_x_le a b = true -> within ly b = true -> within ly a = true.
Proof.
  unfold span_x_le, within. rewrite !Qleb_le. intros; lra.
Qed.

Lemma lyric_fold chords :
  forall lyrics pre rest result,
    chords = pre ++ rest ->
    StronglySorted (fun a b => span_x_le a b = true) rest ->
    let st := fold_left (lyric_step chords) lyrics (List.length pre, result) in
    drain_chords (List.length chords) chords (fst st) (snd st) =
    result ++ interleave_spec rest lyrics.
Proof.
  induction lyrics as [|ly lyrics IH]; intros pre rest result Hc Hs; cbn zeta.
  - subst chords. simpl. apply drain_chords_all. rewrite length_app. lia.
  - cbn [fold_left interleave_spec]. subst chords.
    assert (Hstep :
      lyric_step (pre ++ rest) (List.length pre, result) ly =
      (List.length (pre ++ fst (span (within ly) rest)),
       (result ++ map (fun c => bracket (sp_text c)) (fst (span (within ly) rest)))
       ++ [sp_text ly])).
    { unfold lyric_step.
      rewrite take_chords_span by (rewrite length_app; lia).
      rewrite <- length_app. reflexivity. }
    rewrite Hstep. clear Hstep.
    destruct (@span_ascending _ (fun a b => span_x_le a b = true) (within ly) rest
                (@within_downward ly) Hs) as (Hnow & Hlater & Hs').
    specialize (IH (pre ++ fst (span (within ly) rest)) (snd (span (within ly) rest))).
    cbn zeta in IH. rewrite IH.
    + rewrite Hnow, Hlater, <- !app_assoc. reflexivity.
    + rewrite <- app_assoc, span_app. reflexivity.
    + exact Hs'.
Qed.



(* ================================================================== *)
(** ** Line merger *)

Lemma merge_spec_pass this rest :
  chord_only this && match rest with next :: _ => with_lyrics next | [] => false end
    = false ->
  merge_spec (this :: rest) = this :: merge_spec rest.
Proof.
  destruct rest as [|next rest]; simpl; [reflexivity |].
  intros ->. reflexivity.
Qed.

Lemma nth_error_after_length {A} (pre : list A) a rest :
  nth_error (pre ++ a :: rest) (List.length pre + 1) = hd_error rest.
Proof.
  rewrite (app_snoc pre a rest), <- (length_snoc pre a).
  apply nth_error_at_length.
Qed.

Lemma merge_loop_spec fuel :
  forall pre rest merged_lines,
    (List.length rest <= fuel)%nat ->
    merge_loop fuel (pre ++ rest) (List.length pre) merged_lines =
    merged_lines ++ merge_spec rest.
Proof.
  induction fuel as [|fuel IH]; intros pre rest acc Hlen.
  - destruct rest; [|simpl in Hlen; lia]. simpl. rewrite app_nil_r. reflexivity.
  - cbn [merge_loop]. rewrite nth_error_at_length.
    destruct rest as [|this rest]; cbn [hd_error].
    { simpl. rewrite app_nil_r. reflexivity. }
    assert (Hpass :
      chord_only this
      && match rest with next :: _ => with_lyrics next | [] => false end = false ->
      merge_loop fuel (pre ++ this :: rest) (List.length pre + 1) (acc ++ [this]) =
      acc ++ merge_spec (this :: rest)).
    { intros Hno. rewrite (merge_spec_pass this rest Hno).
      rewrite (app_snoc pre this rest), <- (length_snoc pre this).
      rewrite IH by (simpl in Hlen; lia).
      rewrite <- app_assoc. reflexivity. }
    destruct this as [t | chords lyrics].
    { apply Hpass. reflexivity. }
    rewrite nth_error_after_length.
    destruct chords as [|c chords]; [apply Hpass; reflexivity |].
    destruct lyrics as [|l lyrics]; [| apply Hpass; reflexivity].
    cbn [nonempty negb andb].
    destruct rest as [|next rest].
    { replace (Nat.ltb _ _) with false; [apply Hpass; reflexivity |].
      symmetry. apply Nat.ltb_ge. rewrite length_app. simpl. lia. }
    replace (Nat.ltb _ _) with true
      by (symmetry; apply Nat.ltb_lt; rewrite length_app; simpl; lia).
    cbn [hd_error].
    destruct next as [t | next_chords next_lyrics]; [apply Hpass; reflexivity |].
    destruct next_lyrics as [|nl next_lyrics]; [apply Hpass; reflexivity |].
    cbn [nonempty merge_spec chord_only with_lyrics andb merged chords_of lyrics_of].
    replace (pre ++ ChordLine (c :: chords) [] :: ChordLine next_chords (nl :: next_lyrics) :: rest)
      with ((pre ++ [ChordLine (c :: chords) []; ChordLine next_chords (nl :: next_lyrics)]) ++ rest)
      by (rewrite <- app_assoc; reflexivity).
    replace (List.length pre + 2)%nat
      with (List.length (pre ++ [ChordLine (c :: chords) []; ChordLine next_chords (nl :: next_lyrics)]))
      by (rewrite length_app; reflexivity).
    rewrite IH by (simpl in Hlen; lia).
    rewrite <- app_assoc. reflexivity.
Qed.

Lemma merge_lines_eq lines : merge_lines lines = merge_spec lines.
Proof.
  unfold merge_lines.
  exact (@merge_loop_spec (List.length lines) [] lines [] (le_n _)).
Qed.

(** C4: the merger pass is the scan that the specification describes: a
    line with chords and no lyrics, directly followed by a line that is
    not a dynamics marker and has lyrics, becomes one line with the
    chords of both, in order, and the lyrics of the second, and both are
    consumed; any other line passes through unchanged.  A chord-only
    line followed by a dynamics line does not merge. *)
Theorem merge_lines_spec :
  (forall lines, merge_lines lines = merge_spec lines) /\
  (forall c chords next_chords l lyrics rest,
     merge_lines (ChordLine (c :: chords) [] :: ChordLine next_chords (l :: lyrics) :: rest)
     = ChordLine ((c :: chords) ++ next_chords) (l :: lyrics) :: merge_lines rest) /\
  (forall c chords t rest,
     merge_lines (ChordLine (c :: chords) [] :: DynamicsLine t :: rest)
     = ChordLine (c :: chords) [] :: DynamicsLine t :: merge_lines rest).
Proof.
  split; [exact merge_lines_eq | split]; intros; rewrite !merge_lines_eq.
  - reflexivity.
  - rewrite (merge_spec_pass (ChordLine (c :: chords) []) (DynamicsLine t :: rest))
      by reflexivity.
    rewrite (merge_spec_pass (DynamicsLine t) rest) by reflexivity.
    reflexivity.
Qed.

(* ================================================================== *)
(** ** Nearest chord to the left *)






(* ================================================================== *)
(** ** Dictionaries keyed by x *)

Lemma Qeq_bool_congr k k0 k' :
  Qeq_bool k k0 = true -> Qeq_bool k' k = Qeq_bool k' k0.
Proof.
  intros H. apply Qeq_bool_iff in H.
  destruct (Qeq_bool k' k) eqn:E1, (Qeq_bool k' k0) eqn:E2; try reflexivity.
  - apply Qeq_bool_iff in E1. apply Qeq_bool_neq in E2. exfalso. apply E2. lra.
  - apply Qeq_bool_iff in E2. apply Qeq_bool_neq in E1. exfalso. apply E1. lra.
Qed.

Lemma Qeq_bool_congr_l k k0 k' :
  Qeq_bool k k0 = true -> Qeq_bool k k' = Qeq_bool k0 k'.
Proof.
  intros H. apply Qeq_bool_iff in H.
  destruct (Qeq_bool k k') eqn:E1, (Qeq_bool k0 k') eqn:E2; try reflexivity.
  - apply Qeq_bool_iff in E1. apply Qeq_bool_neq in E2. exfalso. apply E2. lra.
  - apply Qeq_bool_iff in E2. apply Qeq_bool_neq in E1. exfalso. apply E1. lra.
Qed.

Lemma xdict_get_congr {V} (d : list (Q * V)) k k0 :
  Qeq_bool k k0 = true -> xdict_get d k = xdict_get d k0.
Proof.
  intros H. induction d as [|[k' v] d IH]; simpl; [reflexivity |].
  rewrite (@Qeq_bool_congr_l k k0 k' H), IH. reflexivity.
Qed.

Lemma xdict_get_set {V} (d : list (Q * V)) k v k' :
  xdict_get (xdict_set d k v) k' =
  if Qeq_bool k' k then Some v else xdict_get d k'.
Proof.
  induction d as [|[k0 v0] d IH]; simpl; [reflexivity |].
  destruct (Qeq_bool k k0) eqn:E; simpl.
  - rewrite (@Qeq_bool_congr k k0 k' E). destruct (Qeq_bool k' k0); reflexivity.
  - rewrite IH. destruct (Qeq_bool k' k0) eqn:E0; [| reflexivity].
    destruct (Qeq_bool k' k) eqn:E1; [| reflexivity].
    exfalso. rewrite (@Qeq_bool_congr_l k' k k0 E1) in E0.
    apply Qeq_bool_iff in E0. apply Qeq_bool_neq in E. apply E. lra.
Qed.

(* ================================================================== *)
(** ** Modifier and bass attachment *)

Lemma modifier_step_get page raw_chords st m k :
  xdict_get (fst (modifier_step page raw_chords st m)) k =
  match nearest_left 25 raw_chords (snd m) with
  | Some (bx, _) =>
      if Qeq_bool k bx
      then Some (or_empty (xdict_get (fst st) k) ++ [w_text (fst m)])
      else xdict_get (fst st) k
  | None => xdict_get (fst st) k
  end.
Proof.
  destruct st as [cm hs], m as [mod_w mod_x]. unfold modifier_step. cbn [fst snd].
  destruct (nearest_left 25 raw_chords mod_x) as [[bx bw]|]; [| reflexivity].
  cbn [fst]. rewrite xdict_get_set.
  destruct (Qeq_bool k bx) eqn:E.
  - rewrite (@xdict_get_congr _ cm k bx E). unfold xdict_mem.
    destruct (xdict_get cm bx) eqn:G; cbn [or_empty].
    + rewrite G. reflexivity.
    + rewrite xdict_get_set.
      assert (Qeq_bool bx bx = true) as -> by (apply Qeq_bool_iff; reflexivity).
      reflexivity.
  - unfold xdict_mem. destruct (xdict_get cm bx); [reflexivity |].
    rewrite xdict_get_set, E. reflexivity.
Qed.

Lemma attach_modifiers_fold page raw_chords :
  forall modifiers st k,
    xdict_get (fst (fold_left (modifier_step page raw_chords) modifiers st)) k =
    match texts (attached_to 25 raw_chords k modifiers) with
    | [] => xdict_get (fst st) k
    | l => Some (or_empty (xdict_get (fst st) k) ++ l)
    end.
Proof.
  induction modifiers as [|m modifiers IH]; intros st k; [reflexivity |].
  cbn [fold_left]. rewrite IH, modifier_step_get.
  unfold attached_to. cbn [filter]. fold (attached_to 25 raw_chords k modifiers).
  destruct (nearest_left 25 raw_chords (snd m)) as [[bx bw]|]; [| reflexivity].
  destruct (Qeq_bool k bx); [| reflexivity].
  cbn [texts map]. fold (texts (attached_to 25 raw_chords k modifiers)).
  destruct (texts (attached_to 25 raw_chords k modifiers)) as [|t l].
  - reflexivity.
  - cbn [or_empty]. rewrite <- app_assoc. reflexivity.
Qed.

(** The modifier texts of the chord at [k], in encounter order. *)
Lemma attach_modifiers_get page raw_chords modifiers k :
  xdict_get (fst (attach_modifiers page raw_chords modifiers)) k =
  match texts (attached_to 25 raw_chords k modifiers) with
  | [] => None
  | l => Some l
  end.
Proof.
  unfold attach_modifiers. rewrite attach_modifiers_fold. reflexivity.
Qed.

Lemma last_text_cons b l :
  last_text (b :: l) =
  match last_text l with Some t => Some t | None => Some (w_text (fst b)) end.
Proof.
  unfold last_text. cbn [rev]. destruct (rev l); reflexivity.
Qed.


Lemma attach_bass_fold raw_chords :
  forall bass_notes d k,
    xdict_get (fold_left (bass_step raw_chords) bass_notes d) k =
    match last_text (attached_to 50 raw_chords k bass_notes) with
    | Some t => Some t
    | None => xdict_get d k
    end.
Proof.
  induction bass_notes as [|b bass_notes IH]; intros d k; [reflexivity |].
  cbn [fold_left]. rewrite IH.
  unfold attached_to. cbn [filter]. fold (attached_to 50 raw_chords k bass_notes).
  destruct b as [bass_w bass_x]. unfold bass_step. cbn [snd].
  destruct (nearest_left 50 raw_chords bass_x) as [[bx bw]|]; [| reflexivity].
  rewrite xdict_get_set.
  destruct (Qeq_bool k bx); [| reflexivity].
  rewrite last_text_cons.
  destruct (last_text (attached_to 50 raw_chords k bass_notes)); reflexivity.
Qed.

(** The bass text of the chord at [k]: that of the last bass token
    attached to it. *)
Lemma attach_bass_get raw_chords bass_notes k :
  xdict_get (attach_bass raw_chords bass_notes) k =
  last_text (attached_to 50 raw_chords k bass_notes).
Proof.
  unfold attach_bass. rewrite attach_bass_fold.
  destruct (last_text _); reflexivity.
Qed.






(* ================================================================== *)
(** ** Composite chord text *)

Lemma normalize_chord_app a b :
  normalize_chord (a ++ b) = normalize_chord a ++ normalize_chord b.
Proof.
  assert (H : forall s, normalize_chord s =
    remove_char 32%N (replace_char flat_sign 98%N (replace_char sharp_sign 35%N s))).
  { intros [|c s]; reflexivity. }
  rewrite !H. unfold remove_char, replace_char.
  rewrite !map_app, filter_app. reflexivity.
Qed.

Lemma normalize_chord_join l :
  normalize_chord (join [] l) = join [] (map normalize_chord l).
Proof.
  induction l as [|a l IH]; [reflexivity |].
  destruct l as [|b l]; [reflexivity |].
  change (join [] (a :: b :: l)) with (a ++ join [] (b :: l)).
  rewrite normalize_chord_app, IH. reflexivity.
Qed.

(** The bass text is normalised with the rest of the composite text: the
    flat sign of "/A-flat" becomes "b". *)
Lemma flat_bass_is_normalized :
  parse_column flat_bass_words 40 None =
    [mkSection (lit "Chorus") None [ChordLine [mkSpan (lit "B/Ab") 40] []]] /\
  lit "B/Ab" <> normalize_chord (lit "B") ++ (lit "/A" ++ [flat_sign]).
Proof. split; [reflexivity | vm_compute; discriminate]. Qed.

(** C3 (amended): the composite text of every assembled chord of a row is
    built in this order: the root token text, then "#" if a sharp curve
    was detected, then the texts of the attached modifiers in token
    order, then the text of the attached bass note; the replacement of
    the sharp and flat signs by # and b and the removal of spaces are
    applied to the whole composite text, that is to the root, to every
    modifier text and to the bass text alike. *)
Theorem composite_chord_text (page : option Page)
    (raw_chords modifiers bass_notes : list (Word * Q)) :
  line_chords (build_chords page raw_chords modifiers bass_notes) =
  map (fun c =>
         mkSpan
           (normalize_chord (w_text (fst c))
            ++ (if xdict_mem (sharp_marks page raw_chords modifiers) (snd c)
                then lit "#" else [])
            ++ join [] (map normalize_chord
                          (texts (attached_to 25 raw_chords (snd c) modifiers)))
            ++ normalize_chord
                 (or_empty (last_text (attached_to 50 raw_chords (snd c) bass_notes))))
           (snd c))
      raw_chords.
Proof.
  unfold line_chords, build_chords. rewrite map_map. apply map_ext.
  intros [cw cx]. cbn [fst snd sp_text]. f_equal.
  unfold chord_text. rewrite attach_modifiers_get, attach_bass_get.
  destruct (texts (attached_to 25 raw_chords cx modifiers)) as [|m ms];
    destruct (last_text (attached_to 50 raw_chords cx bass_notes)) as [b|];
    destruct (xdict_mem (sharp_marks page raw_chords modifiers) cx);
    cbn [or_empty];
    rewrite ?normalize_chord_app, ?normalize_chord_join;
    cbn [map join]; rewrite ?app_nil_r, <- ?app_assoc; reflexivity.
Qed.

(* ================================================================== *)
(** ** Sections that reach emission *)

Lemma merge_lines_nonempty lines : lines <> [] -> merge_lines lines <> [].
Proof.
  intros H. rewrite merge_lines_eq.
  destruct lines as [|this [|next rest]]; [congruence | discriminate |].
  cbn [merge_spec]. destruct (chord_only this && with_lyrics next); discriminate.
Qed.

Lemma save_section_lines sections current_section :
  Forall (fun s => sec_lines s <> []) sections ->
  Forall (fun s => sec_lines s <> []) (save_section sections current_section).
Proof.
  intros H. unfold save_section.
  destruct current_section as [cs|]; [| exact H].
  destruct (sec_lines cs) eqn:E; cbn [nonempty]; [exact H |].
  apply Forall_app. split; [exact H |].
  constructor; [rewrite E; discriminate | constructor].
Qed.

Lemma row_step_lines page st line_words :
  Forall (fun s => sec_lines s <> []) (fst st) ->
  Forall (fun s => sec_lines s <> []) (fst (row_step page st line_words)).
Proof.
  destruct st as [sections current_section]. cbn [fst]. intros H.
  unfold row_step. destruct line_words as [|w ws]; [exact H |].
  destruct (is_header _); cbn [fst].
  - apply save_section_lines. exact H.
  - destruct current_section as [cs|]; [| exact H].
    repeat match goal with
           | |- context [if ?b then _ else _] => destruct b
           end; exact H.
Qed.

Lemma rows_lines page :
  forall lines st,
    Forall (fun s => sec_lines s <> []) (fst st) ->
    Forall (fun s => sec_lines s <> []) (fst (fold_left (row_step page) lines st)).
Proof.
  induction lines as [|r lines IH]; intros st H; cbn [fold_left]; [exact H |].
  apply IH. apply row_step_lines. exact H.
Qed.

Lemma parse_column_lines words col_start_x page :
  Forall (fun s => sec_lines s <> []) (parse_column words col_start_x page).
Proof.
  unfold parse_column. destruct words as [|w ws]; [constructor |].
  pose proof (@rows_lines page (group_lines (w :: ws)) ([], None) (Forall_nil _)) as H.
  destruct (fold_left _ _ _) as [sections current_section]. cbn [fst] in H.
  apply Forall_map.
  eapply Forall_impl; [| apply save_section_lines; exact H].
  intros s Hs. cbn [sec_lines]. apply merge_lines_nonempty. exact Hs.
Qed.

Lemma parse_page_lines page page_num title :
  Forall (fun s => sec_lines s <> []) (parse_page page page_num title).
Proof.
  unfold parse_page. destruct (page_words page); [constructor |].
  destruct (filter _ _); [constructor |].
  apply Forall_app. split; apply parse_column_lines.
Qed.

Lemma parse_pages_lines title :
  forall pages page_num,
    Forall (fun s => sec_lines s <> []) (parse_pages pages page_num title).
Proof.
  induction pages as [|page pages IH]; intros page_num; cbn [parse_pages].
  - constructor.
  - apply Forall_app. split; [apply parse_page_lines | apply IH].
Qed.

(** A header whose section-name tokens format to the empty text opens a
    section with an empty name, and that section is emitted. *)
Lemma nameless_section_is_emitted :
  parse_pages nameless_pdf 0 [] =
    [mkSection [] None [ChordLine [] [mkSpan (lit "grace") 40]]] /\
  convert_pdf (lit "hymn.pdf") nameless_pdf =
    Some (lit "{title: }" ++ [10%N] ++ lit "{time: 4/4}" ++ [10%N] ++ [10%N]
          ++ lit "{section: }" ++ [10%N] ++ lit "grace" ++ [10%N]).
Proof. split; reflexivity. Qed.

(** C9 (amended): in every conversion run, every section that reaches
    emission has at least one line; a section whose line list is empty
    when the next header row opens or when the column ends is dropped and
    contributes nothing to the output, which is made of the header tags
    and the blocks of the sections kept.  (The name of a section is the
    formatted text of its header and may be empty.) *)
Theorem emitted_sections_have_lines :
  (forall words col_start_x page s,
     In s (parse_column words col_start_x page) -> sec_lines s <> []) /\
  (forall pdf title s, In s (parse_pages pdf 0 title) -> sec_lines s <> []) /\
  (forall sections name dyn,
     save_section sections (Some (mkSection name dyn [])) = sections) /\
  (forall pdf_path page rest,
     exists metadata all_sections,
       convert_pdf pdf_path (page :: rest) =
         Some (join [10%N] (emit_header metadata ++ flat_map emit_section all_sections)) /\
       Forall (fun s => sec_lines s <> []) all_sections).
Proof.
  split; [| split; [| split]].
  - intros words col_start_x page s.
    apply (proj1 (Forall_forall _ _) (parse_column_lines words col_start_x page)).
  - intros pdf title s.
    apply (proj1 (Forall_forall _ _) (parse_pages_lines title pdf 0)).
  - reflexivity.
  - intros pdf_path page rest. unfold convert_pdf. cbn [extract_metadata].
    eexists _, _. split; [reflexivity | apply parse_pages_lines].
Qed.

Lemma emitted_sections_have_lines_witness :
  sec_lines (mkSection [] None [ChordLine [] [mkSpan (lit "grace") 40]]) <> [].
Proof.
  apply (proj1 (proj2 emitted_sections_have_lines) nameless_pdf []).
  left. reflexivity.
Defined.

(* ================================================================== *)
(** ** Characters *)

Ltac bool_hyp H :=
  lazymatch type of H with
  | (_ || _)%bool = true =>
      apply orb_true_iff in H; destruct H as [H | H]; bool_hyp H
  | (_ || _)%bool = false =>
      let H' := fresh H in
      apply orb_false_iff in H; destruct H as [H H']; bool_hyp H; bool_hyp H'
  | (_ && _)%bool = true =>
      let H' := fresh H in
      apply andb_true_iff in H; destruct H as [H H']; bool_hyp H; bool_hyp H'
  | (_ && _)%bool = false =>
      apply andb_false_iff in H; destruct H as [H | H]; bool_hyp H
  | (_ <=? _)%N = true => apply N.leb_le in H
  | (_ <=? _)%N = false => apply N.leb_gt in H
  | (_ =? _)%N = true => apply N.eqb_eq in H
  | (_ =? _)%N = false => apply N.eqb_neq in H
  | _ => idtac
  end.

(** A letter is neither white space, nor a digit, nor a rule character. *)
Lemma cased_not_space c : is_cased c = true -> is_space c = false.
Proof.
  intros H. destruct (is_space c) eqn:E; [| reflexivity]. exfalso.
  unfold is_cased, is_upper, is_lower in H. unfold is_space in E.
  bool_hyp H; bool_hyp E; lia.
Qed.

Lemma cased_not_digit c : is_cased c = true -> is_digit c = false.
Proof.
  intros H. destruct (is_digit c) eqn:E; [| reflexivity]. exfalso.
  unfold is_cased, is_upper, is_lower in H. unfold is_digit in E.
  bool_hyp H; bool_hyp E; lia.
Qed.

Lemma digit_not_space c : is_digit c = true -> is_space c = false.
Proof.
  intros H. destruct (is_space c) eqn:E; [| reflexivity]. exfalso.
  unfold is_digit in H. unfold is_space in E.
  bool_hyp H; bool_hyp E; lia.
Qed.


Lemma upper_char_cased c : is_cased c = true -> is_cased (upper_char c) = true.
Proof.
  intros H. unfold upper_char. destruct (is_lower c) eqn:E; [| exact H].
  destruct (is_cased (c - 32)%N) eqn:E'; [reflexivity | exfalso].
  unfold is_lower in E. unfold is_cased, is_upper, is_lower in E'.
  bool_hyp E; bool_hyp E'; lia.
Qed.

Lemma lower_char_cased c : is_cased c = true -> is_cased (lower_char c) = true.
Proof.
  intros H. unfold lower_char. destruct (is_upper c) eqn:E; [| exact H].
  destruct (is_cased (c + 32)%N) eqn:E'; [reflexivity | exfalso].
  unfold is_upper in E. unfold is_cased, is_upper, is_lower in E'.
  bool_hyp E; bool_hyp E'; lia.
Qed.

Lemma upper_char_uncased c : is_cased c = false -> upper_char c = c.
Proof.
  unfold is_cased, upper_char. intros H. apply orb_false_iff in H as [_ ->].
  reflexivity.
Qed.

Lemma lower_char_uncased c : is_cased c = false -> lower_char c = c.
Proof.
  unfold is_cased, lower_char. intros H. apply orb_false_iff in H as [-> _].
  reflexivity.
Qed.




Lemma lower_upper_char c : lower_char (upper_char c) = lower_char c.
Proof.
  unfold upper_char, lower_char. destruct (is_lower c) eqn:E.
  - destruct (is_upper (c - 32)%N) eqn:E1, (is_upper c) eqn:E2;
      unfold is_lower in E; unfold is_upper in E1, E2;
      bool_hyp E; bool_hyp E1; bool_hyp E2; lia.
  - reflexivity.
Qed.

Lemma title_char_cased p c : is_cased (title_char p c) = is_cased c.
Proof.
  unfold title_char. destruct (is_cased c) eqn:E; [| exact E].
  destruct p; [apply lower_char_cased | apply upper_char_cased]; exact E.
Qed.



(** [str.title] keeps every class of characters that has no letter. *)
Lemma title_char_class (P : char -> bool) p c :
  (forall x, is_cased x = true -> P x = false) -> P (title_char p c) = P c.
Proof.
  intros HP. destruct (is_cased c) eqn:E.
  - rewrite (HP c E). apply HP. rewrite title_char_cased. exact E.
  - unfold title_char. rewrite E. reflexivity.
Qed.

(* ================================================================== *)
(** ** First and last characters, stripping *)

Lemma last_is_snoc p t c : last_is p (t ++ [c]) = p c.
Proof.
  induction t as [|a t IH]; [reflexivity |].
  cbn [app last_is]. destruct (t ++ [c]) eqn:E; [| exact IH].
  destruct t; discriminate.
Qed.

Lemma last_is_app p a b : b <> [] -> last_is p (a ++ b) = last_is p b.
Proof.
  intros Hb. induction a as [|x a IH]; [reflexivity |].
  cbn [app last_is]. destruct (a ++ b) eqn:E; [| exact IH].
  destruct a, b; try discriminate. congruence.
Qed.

Lemma last_is_rev p t : last_is p t = head_is p (rev t).
Proof.
  rewrite <- (rev_involutive t) at 1.
  destruct (rev t) as [|c r]; [reflexivity |].
  cbn [rev]. apply last_is_snoc.
Qed.

Lemma last_is_weaken (p q : char -> bool) t :
  (forall c, q c = true -> p c = true) -> last_is p t = false -> last_is q t = false.
Proof.
  intros Hpq. induction t as [|c t IH]; [reflexivity |].
  cbn [last_is]. destruct t; [| exact IH].
  intros H. destruct (q c) eqn:E; [| reflexivity].
  rewrite (Hpq c E) in H. discriminate.
Qed.

Lemma lstrip_head t : head_is is_space (lstrip t) = false.
Proof.
  induction t as [|c t IH]; [reflexivity |].
  cbn [lstrip]. destruct (is_space c) eqn:E; [exact IH | exact E].
Qed.

Lemma lstrip_id t : head_is is_space t = false -> lstrip t = t.
Proof.
  destruct t as [|c t]; [reflexivity |]. cbn [head_is lstrip]. intros ->. reflexivity.
Qed.



Lemma rstrip_last t : last_is is_space (rstrip t) = false.
Proof.
  rewrite last_is_rev. unfold rstrip. rewrite rev_involutive. apply lstrip_head.
Qed.

Lemma rstrip_id t : last_is is_space t = false -> rstrip t = t.
Proof.
  rewrite last_is_rev. unfold rstrip. intros H.
  rewrite (lstrip_id _ H). apply rev_involutive.
Qed.




Lemma strip_last t : last_is is_space (strip t) = false.
Proof. unfold strip. apply rstrip_last. Qed.

Lemma strip_id t :
  head_is is_space t = false -> last_is is_space t = false -> strip t = t.
Proof.
  intros Hh Hl. unfold strip. rewrite (lstrip_id _ Hh). apply rstrip_id. exact Hl.
Qed.

(* ================================================================== *)
(** ** Case mappings of texts *)

Lemma title_from_chars p t :
  title_from p t =
  match t with
  | [] => []
  | c :: t' => title_char p c :: title_from (is_cased c) t'
  end.
Proof. destruct t; reflexivity. Qed.


Lemma title_from_last (P : char -> bool) t :
  (forall x, is_cased x = true -> P x = false) ->
  forall p, last_is P (title_from p t) = last_is P t.
Proof.
  intros HP. induction t as [|c t IH]; intros p; [reflexivity |].
  rewrite title_from_chars. destruct t as [|c' t].
  - cbn [title_from last_is]. apply title_char_class. exact HP.
  - specialize (IH (is_cased c)). rewrite title_from_chars in IH |- *.
    cbn [last_is] in IH |- *. exact IH.
Qed.



(* ================================================================== *)
(** ** The table of section names *)

Lemma map_get_cases m k :
  (forall d, map_get m k d = d) \/
  (exists v, In v (map snd m) /\ forall d, map_get m k d = v).
Proof.
  induction m as [|[k' v] m IH]; [left; reflexivity |].
  cbn [map_get map snd]. destruct (eqb k k').
  - right. exists v. split; [left; reflexivity | reflexivity].
  - destruct IH as [IH | (v' & Hin & IH)]; [left; exact IH |].
    right. exists v'. split; [right; exact Hin | exact IH].
Qed.

(** Every canonical name is a fixed point of the table lookup, starts and
    ends with a letter. *)
Lemma name_map_values (v : text) :
  In v (map snd name_map) ->
  formatted_of v = v /\ head_is is_space v = false /\ last_is is_space v = false
  /\ last_is is_digit v = false.
Proof.
  cbn [name_map map snd In]. intros H.
  repeat (destruct H as [<- | H]; [repeat split; reflexivity |]).
  destruct H.
Qed.



Lemma formatted_of_last_space n :
  last_is is_space n = false -> last_is is_space (formatted_of n) = false.
Proof.
  intros H. unfold formatted_of.
  destruct (map_get_cases name_map (upper n)) as [Hmiss | (v & Hin & Hhit)].
  - rewrite Hmiss. unfold title. rewrite title_from_last; [exact H |].
    exact cased_not_space.
  - rewrite Hhit. apply (name_map_values Hin).
Qed.


(* ================================================================== *)
(** ** The trailing rule and the trailing number *)

Lemma span_fst_all {A} (p : A -> bool) l : forallb p (fst (span p l)) = true.
Proof.
  induction l as [|a l IH]; [reflexivity |]. cbn [span].
  destruct (p a) eqn:E; [| reflexivity].
  destruct (span p l). cbn [fst forallb] in *. rewrite E. exact IH.
Qed.


Lemma last_is_forallb p t : t <> [] -> forallb p t = true -> last_is p t = true.
Proof.
  induction t as [|c t IH]; [congruence |]. intros _ H.
  cbn [forallb] in H. apply andb_true_iff in H as [Hc H].
  cbn [last_is]. destruct t; [exact Hc | apply IH; [discriminate | exact H]].
Qed.

(** A text that ends neither with a rule character nor with white space
    is left as it is. *)
Lemma sub_rule_end_id t :
  last_is is_rule t = false -> last_is is_space t = false -> sub_rule_end t = t.
Proof.
  induction t as [|c t IH]; [reflexivity |]. intros Hr Hs.
  cbn [sub_rule_end].
  assert (Hno : is_rule c && at_end (snd (span is_rule (c :: t))) = false).
  { destruct (is_rule c) eqn:Ec; [| reflexivity]. cbn [andb].
    pose proof (span_app is_rule (c :: t)) as Happ.
    pose proof (span_fst_all is_rule (c :: t)) as Hall.
    cbn [span] in Happ, Hall |- *. rewrite Ec in Happ, Hall |- *.
    destruct (span is_rule t) as [run r]. cbn [fst snd] in *.
    destruct r as [|x [|y r]]; [| | reflexivity].
    - exfalso. rewrite app_nil_r in Happ. rewrite <- Happ in Hr.
      rewrite (last_is_forallb is_rule) in Hr; [discriminate | discriminate | exact Hall].
    - cbn [at_end]. destruct (N.eqb_spec x 10) as [-> |]; [| reflexivity].
      exfalso. rewrite <- Happ in Hs.
      change (c :: run ++ [10%N]) with ((c :: run) ++ [10%N]) in Hs.
      rewrite last_is_snoc in Hs. discriminate. }
  rewrite Hno. f_equal. destruct t as [|c' t]; [reflexivity |].
  apply IH; [exact Hr | exact Hs].
Qed.

Lemma match_number_parts s d :
  match_number s = Some d ->
  d <> [] /\ forallb is_digit d = true /\
  exists r, s = d ++ r /\ forallb is_space r = true.
Proof.
  unfold match_number.
  pose proof (span_app is_digit s) as Happ.
  pose proof (span_fst_all is_digit s) as Hall.
  destruct (span is_digit s) as [[|x ds] r]; [discriminate |].
  cbn [fst snd] in *. destruct (forallb is_space r) eqn:E; [| discriminate].
  intros H. injection H as <-.
  split; [discriminate | split; [exact Hall |]].
  exists r. split; [symmetry; exact Happ | exact E].
Qed.

Lemma match_number_last s d :
  match_number s = Some d -> last_is (fun c => is_digit c || is_space c) s = true.
Proof.
  intros H. destruct (match_number_parts s H) as (Hd & Hall & r & -> & Hr).
  destruct r as [|x r].
  - rewrite app_nil_r. apply last_is_forallb; [exact Hd |].
    rewrite forallb_forall in Hall |- *. intros c Hc. rewrite (Hall c Hc). reflexivity.
  - rewrite last_is_app by discriminate. apply last_is_forallb; [discriminate |].
    rewrite forallb_forall in Hr |- *. intros c Hc. rewrite (Hr c Hc).
    apply orb_true_r.
Qed.

(** No number is found in a text that ends neither with a digit nor with
    white space. *)
Lemma search_number_none t :
  last_is (fun c => is_digit c || is_space c) t = false -> search_number t = None.
Proof.
  induction t as [|c t IH]; intros H.
  - reflexivity.
  - cbn [search_number]. destruct (match_number (c :: t)) as [d|] eqn:E.
    + rewrite (match_number_last _ E) in H. discriminate.
    + destruct t as [|c' t]; [reflexivity |]. rewrite IH; [reflexivity | exact H].
Qed.





(* ================================================================== *)
(** ** Section-name formatting *)

Lemma last_is_or p q t :
  last_is (fun c => p c || q c) t = last_is p t || last_is q t.
Proof.
  induction t as [|c t IH]; [reflexivity |].
  cbn [last_is]. destruct t; [reflexivity | exact IH].
Qed.

Lemma last_is_exclusive (p q : char -> bool) t :
  (forall c, p c = true -> q c = false) -> last_is p t = true -> last_is q t = false.
Proof.
  intros Hpq. induction t as [|c t IH]; [discriminate |].
  cbn [last_is]. destruct t; [apply Hpq | exact IH].
Qed.

Lemma search_number_parts t i d :
  search_number t = Some (i, d) -> d <> [] /\ forallb is_digit d = true.
Proof.
  revert i. induction t as [|c t IH]; intros i; cbn [search_number].
  - destruct (match_number []) as [d'|] eqn:E; [| discriminate].
    intros H. injection H as _ <-. destruct (match_number_parts _ E) as (H1 & H2 & _).
    split; assumption.
  - destruct (match_number (c :: t)) as [d'|] eqn:E.
    + intros H. injection H as _ <-. destruct (match_number_parts _ E) as (H1 & H2 & _).
      split; assumption.
    + destruct (search_number t) as [[j d']|]; [| discriminate].
      intros H. injection H as _ <-. exact (IH j eq_refl).
Qed.




(** What [format_section_name] returns, by the outcome of the search for a
    trailing number. *)
Lemma format_section_name_shape name :
  let n1 := strip (sub_rule_end (strip name)) in
  format_section_name name =
  match search_number n1 with
  | Some (start, d) => formatted_of (strip (firstn start n1)) ++ 32%N :: d
  | None => formatted_of n1
  end.
Proof.
  cbv zeta. unfold format_section_name. cbv zeta.
  destruct (search_number _) as [[start d]|].
  - reflexivity.
  - apply app_nil_r.
Qed.




(* ================================================================== *)
(** * Further properties of the converter *)

(** ** Chord text normalisation *)

Lemma normalize_chord_chars s c :
  In c (normalize_chord s) -> c <> 32%N /\ c <> sharp_sign /\ c <> flat_sign.
Proof.
  assert (H : normalize_chord s =
    remove_char 32%N (replace_char flat_sign 98%N (replace_char sharp_sign 35%N s)))
    by (destruct s; reflexivity).
  rewrite H. unfold remove_char, replace_char. intros Hin.
  apply filter_In in Hin as [Hin Hc].
  apply negb_true_iff, N.eqb_neq in Hc. split; [exact Hc |].
  apply in_map_iff in Hin as (x & Hx & Hin).
  apply in_map_iff in Hin as (y & Hy & _).
  subst c x.
  destruct (N.eqb_spec y sharp_sign) as [E | E].
  - vm_compute. split; discriminate.
  - destruct (N.eqb_spec y flat_sign) as [E' | E'].
    + vm_compute. split; discriminate.
    + split; assumption.
Qed.

Lemma normalize_chord_fixed s :
  (forall c, In c s -> c <> 32%N /\ c <> sharp_sign /\ c <> flat_sign) ->
  normalize_chord s = s.
Proof.
  intros H.
  assert (E : normalize_chord s =
    remove_char 32%N (replace_char flat_sign 98%N (replace_char sharp_sign 35%N s)))
    by (destruct s; reflexivity).
  rewrite E. clear E. unfold remove_char, replace_char.
  induction s as [|c s IH]; [reflexivity |].
  destruct (H c (or_introl eq_refl)) as (H1 & H2 & H3).
  cbn [map filter].
  apply N.eqb_neq in H2. rewrite H2.
  apply N.eqb_neq in H3. rewrite H3.
  apply N.eqb_neq in H1. rewrite H1. cbn [negb]. f_equal.
  apply IH. intros x Hx. apply H. right. exact Hx.
Qed.

(** X1: [normalize_chord] is idempotent, and its result contains neither a
    space nor a sharp or flat sign. *)
Theorem normalize_chord_clean (s : text) :
  normalize_chord (normalize_chord s) = normalize_chord s /\
  forall c, In c (normalize_chord s) ->
            c <> 32%N /\ c <> sharp_sign /\ c <> flat_sign.
Proof.
  split.
  - apply normalize_chord_fixed. apply normalize_chord_chars.
  - apply normalize_chord_chars.
Qed.

(* ================================================================== *)
(** ** Metadata extractor: the fields *)

Lemma extract_metadata_shape t :
  extract_metadata_text t =
  [("title"%string, join (lit " ") (fst (scan_title 0 (split 10%N t) [] [])));
   ("artist"%string, snd (scan_title 0 (split 10%N t) [] []));
   ("key"%string,
     match re_search match_key t with
     | Some g => replace_char flat_sign 98%N (replace_char sharp_sign 35%N g)
     | None => []
     end);
   ("tempo"%string,
     match re_search match_tempo t with Some g => g | None => [] end);
   ("time"%string,
     match re_search match_time t with Some g => g | None => lit "4/4" end)].
Proof.
  unfold extract_metadata_text.
  change (dict_get_default _ "artist" []) with (@nil char).
  destruct (scan_title 0 (split 10%N t) [] []) as [title_parts artist].
  destruct (re_search match_key t); destruct (re_search match_tempo t);
    destruct (re_search match_time t); reflexivity.
Qed.

Lemma re_search_some (m : text -> option text) s g :
  re_search m s = Some g -> exists s', m s' = Some g.
Proof.
  induction s as [|c s IH]; cbn [re_search].
  - destruct (m []) eqn:E; [| discriminate]. intros H. exists []. congruence.
  - destruct (m (c :: s)) eqn:E; [intros H; exists (c :: s); congruence | exact IH].
Qed.

Lemma match_key_shape s g :
  match_key s = Some g ->
  exists c acc,
    g = c :: acc /\ (65 <= c <= 71)%N /\ (List.length acc <= 2)%nat /\
    Forall (fun a => a = 35%N \/ a = 98%N \/ a = sharp_sign \/ a = flat_sign
                     \/ a = 109%N) acc.
Proof.
  unfold match_key. destruct (after_prefix (lit "Key:") s) as [r|]; [| discriminate].
  destruct (lstrip r) as [|c r1]; [discriminate |].
  destruct ((65 <=? c) && (c <=? 71))%N eqn:Ec; [| discriminate].
  apply andb_true_iff in Ec as [E1 E2]. apply N.leb_le in E1, E2.
  assert (Hminor : forall r2 : text,
    (List.length (match r2 with m :: _ => if (m =? 109)%N then [m] else [] | [] => [] end)
       <= 1)%nat /\
    Forall (fun a => a = 35%N \/ a = 98%N \/ a = sharp_sign \/ a = flat_sign \/ a = 109%N)
      (match r2 with m :: _ => if (m =? 109)%N then [m] else [] | [] => [] end)).
  { intros [|m r2]; [split; [cbn; lia | constructor] |].
    destruct (N.eqb_spec m 109) as [E | E]; (split; [cbn; lia |]).
    - constructor; [do 4 right; exact E | constructor].
    - constructor. }
  destruct r1 as [|a r2].
  - intros H. injection H as <-. destruct (Hminor []) as [H1 H2].
    eexists c, _. split; [reflexivity |]. split; [lia |].
    split; [cbn in *; lia | exact H2].
  - destruct ((a =? 35) || (a =? 98) || (a =? sharp_sign) || (a =? flat_sign))%N eqn:Ea;
      intros H; injection H as <-.
    + destruct (Hminor r2) as [H1 H2].
      eexists c, _. split; [reflexivity |]. split; [lia |].
      cbn [app List.length]. split; [lia |].
      constructor; [| exact H2].
      bool_hyp Ea; subst a; tauto.
    + destruct (Hminor (a :: r2)) as [H1 H2].
      eexists c, _. split; [reflexivity |]. split; [lia |].
      cbn [app]. split; [lia | exact H2].
Qed.

Lemma match_tempo_shape s g :
  match_tempo s = Some g -> g <> [] /\ forallb is_digit g = true.
Proof.
  unfold match_tempo. destruct (after_prefix (lit "Tempo:") s) as [r|]; [| discriminate].
  pose proof (span_fst_all is_digit (lstrip r)) as Hall.
  destruct (fst (span is_digit (lstrip r))) as [|x d]; [discriminate |].
  intros H. injection H as <-. split; [discriminate | exact Hall].
Qed.

Lemma match_time_shape s g :
  match_time s = Some g ->
  exists n d, g = n ++ 47%N :: d /\ n <> [] /\ d <> [] /\
              forallb is_digit n = true /\ forallb is_digit d = true.
Proof.
  unfold match_time. destruct (after_prefix (lit "Time:") s) as [r|]; [| discriminate].
  pose proof (span_fst_all is_digit (lstrip r)) as Hn.
  destruct (span is_digit (lstrip r)) as [[|x n] [|c r1]]; try discriminate.
  destruct (N.eqb_spec c 47) as [-> |]; [| discriminate].
  pose proof (span_fst_all is_digit r1) as Hd.
  destruct (fst (span is_digit r1)) as [|y d]; [discriminate |].
  intros H. injection H as <-.
  exists (x :: n), (y :: d). repeat split; try discriminate; assumption.
Qed.

(** X2: the metadata record always has its five keys, in the order title,
    artist, key, tempo, time; the time value is never empty (so a time tag
    is always emitted), and a default given for a missing title is never
    used. *)
Theorem metadata_keys_present (t : text) :
  map fst (extract_metadata_text t)
    = ["title"; "artist"; "key"; "tempo"; "time"]%string /\
  (exists v, dict_get (extract_metadata_text t) "time" = Some v /\ v <> []) /\
  (forall d d', dict_get_default (extract_metadata_text t) "title" d
                = dict_get_default (extract_metadata_text t) "title" d').
Proof.
  rewrite extract_metadata_shape. split; [reflexivity | split; [| reflexivity]].
  eexists. split; [reflexivity |].
  destruct (re_search match_time t) as [g|] eqn:E; [| discriminate].
  apply re_search_some in E as [s E].
  destruct (match_time_shape _ E) as (n & d & -> & Hn & _).
  destruct n; [congruence | discriminate].
Qed.


Lemma match_key_prefix s g :
  match_key s = Some g -> startswith (lit "Key:") s = true.
Proof.
  unfold match_key.
  destruct (after_prefix (lit "Key:") s) as [r|] eqn:E; [| discriminate].
  intros _. exact (after_prefix_startswith _ _ E).
Qed.

Lemma match_tempo_prefix s g :
  match_tempo s = Some g -> startswith (lit "Tempo:") s = true.
Proof.
  unfold match_tempo.
  destruct (after_prefix (lit "Tempo:") s) as [r|] eqn:E; [| discriminate].
  intros _. exact (after_prefix_startswith _ _ E).
Qed.

(** X4: a first page without the marker "Key:" yields the empty key, and
    one without "Tempo:" the empty tempo. *)
Theorem metadata_defaults (t : text) :
  (contains (lit "Key:") t = false ->
   dict_get (extract_metadata_text t) "key" = Some []) /\
  (contains (lit "Tempo:") t = false ->
   dict_get (extract_metadata_text t) "tempo" = Some []).
Proof.
  rewrite extract_metadata_shape. split; intros H.
  - destruct (re_search match_key t) as [g|] eqn:E; [| reflexivity].
    apply (re_search_contains match_key (lit "Key:")) in E;
      [congruence | exact match_key_prefix].
  - destruct (re_search match_tempo t) as [g|] eqn:E; [| reflexivity].
    apply (re_search_contains match_tempo (lit "Tempo:")) in E;
      [congruence | exact match_tempo_prefix].
Qed.

Lemma metadata_defaults_witness :
  dict_get (extract_metadata_text (lit "Amazing Grace")) "key" = Some [] /\
  dict_get (extract_metadata_text (lit "Amazing Grace")) "tempo" = Some [].
Proof.
  destruct (metadata_defaults (lit "Amazing Grace")) as [H1 H2].
  split; [apply H1 | apply H2]; reflexivity.
Defined.

(* ================================================================== *)
(** ** Chord assembler: bass notes, unattached tokens, pages without curves *)



Lemma attach_modifiers_skip page raw_chords pre m post :
  nearest_left 25 raw_chords (snd m) = None ->
  attach_modifiers page raw_chords (pre ++ m :: post)
  = attach_modifiers page raw_chords (pre ++ post).
Proof.
  intros H. unfold attach_modifiers. rewrite !fold_left_app. cbn [fold_left].
  f_equal. destruct (fold_left _ pre _) as [cm hs], m as [mod_w mod_x].
  unfold modifier_step. cbn [snd] in H. rewrite H. reflexivity.
Qed.

Lemma attach_bass_skip raw_chords pre b post :
  nearest_left 50 raw_chords (snd b) = None ->
  attach_bass raw_chords (pre ++ b :: post) = attach_bass raw_chords (pre ++ post).
Proof.
  intros H. unfold attach_bass. rewrite !fold_left_app. cbn [fold_left].
  f_equal. destruct b as [bass_w bass_x].
  unfold bass_step. cbn [snd] in H. rewrite H. reflexivity.
Qed.

(** X6: a modifier without a chord less than 25px to its left, and a bass
    note without a chord less than 50px to its left, are dropped without
    a trace: the chords of the row are those of the row without the
    token. *)
Theorem unattached_tokens_dropped (page : option Page)
    (raw_chords modifiers bass_notes pre post : list (Word * Q)) (token : Word * Q) :
  (nearest_left 25 raw_chords (snd token) = None ->
   build_chords page raw_chords (pre ++ token :: post) bass_notes
   = build_chords page raw_chords (pre ++ post) bass_notes) /\
  (nearest_left 50 raw_chords (snd token) = None ->
   build_chords page raw_chords modifiers (pre ++ token :: post)
   = build_chords page raw_chords modifiers (pre ++ post)).
Proof.
  split; intros H; unfold build_chords, sharp_marks.
  - rewrite (attach_modifiers_skip page raw_chords pre token post H). reflexivity.
  - rewrite (attach_bass_skip raw_chords pre token post H). reflexivity.
Qed.

Lemma unattached_tokens_dropped_witness :
  build_chords None one_chord [(bold_word (lit "sus4") 35 120 10, 35)] []
  = build_chords None one_chord [] [].
Proof.
  apply (proj1 (unattached_tokens_dropped None one_chord [] [] [] []
                  (bold_word (lit "sus4") 35 120 10, 35))).
  reflexivity.
Defined.

Lemma modifier_step_no_curves page raw_chords cm m :
  match page with Some pg => page_curves pg = [] | None => True end ->
  modifier_step page raw_chords (cm, []) m
  = (fst (modifier_step None raw_chords (cm, []) m), []).
Proof.
  intros Hp. destruct m as [mod_w mod_x]. unfold modifier_step.
  destruct (nearest_left 25 raw_chords mod_x) as [[bx bw]|]; [| reflexivity].
  cbn [fst]. f_equal.
  destruct page as [pg|]; [| reflexivity].
  unfold detect_sharp_curves. rewrite Hp. reflexivity.
Qed.

Lemma attach_modifiers_no_curves page raw_chords :
  match page with Some pg => page_curves pg = [] | None => True end ->
  forall modifiers cm,
    fold_left (modifier_step page raw_chords) modifiers (cm, [])
    = (fst (fold_left (modifier_step None raw_chords) modifiers (cm, [])), []).
Proof.
  intros Hp. induction modifiers as [|m modifiers IH]; intros cm; [reflexivity |].
  cbn [fold_left]. rewrite (modifier_step_no_curves page raw_chords cm m Hp).
  rewrite IH. f_equal. f_equal. f_equal.
  rewrite (modifier_step_no_curves None raw_chords cm m I). reflexivity.
Qed.

Lemma standalone_no_curves page cm :
  match page with Some pg => page_curves pg = [] | None => True end ->
  forall raw_chords, fold_left (standalone_sharp_step page cm) raw_chords [] = [].
Proof.
  intros Hp. induction raw_chords as [|[chord_w chord_x] raw_chords IH]; [reflexivity |].
  cbn [fold_left].
  assert (E : standalone_sharp_step page cm [] (chord_w, chord_x) = []).
  { unfold standalone_sharp_step.
    destruct (negb (xdict_mem cm chord_x) && negb (xdict_mem [] chord_x));
      [| reflexivity].
    destruct page as [pg|]; [| reflexivity]. rewrite Hp. reflexivity. }
  rewrite E. exact IH.
Qed.

(** X7: without a page, or on a page without vector curves, no chord is
    marked sharp, and the chords of a row are those built without the
    page. *)
Theorem no_curves_no_sharps (page : option Page)
    (raw_chords modifiers bass_notes : list (Word * Q)) :
  match page with Some pg => page_curves pg = [] | None => True end ->
  sharp_marks page raw_chords modifiers = [] /\
  build_chords page raw_chords modifiers bass_notes
  = build_chords None raw_chords modifiers bass_notes.
Proof.
  intros Hp.
  assert (Hm : attach_modifiers page raw_chords modifiers
               = (fst (attach_modifiers None raw_chords modifiers), [])).
  { unfold attach_modifiers. apply attach_modifiers_no_curves. exact Hp. }
  assert (Hs : forall pg,
    match pg with Some p => page_curves p = [] | None => True end ->
    attach_modifiers pg raw_chords modifiers
    = (fst (attach_modifiers None raw_chords modifiers), []) ->
    sharp_marks pg raw_chords modifiers = []).
  { intros pg Hpg E. unfold sharp_marks. rewrite E.
    apply standalone_no_curves. exact Hpg. }
  assert (Hn : attach_modifiers None raw_chords modifiers
               = (fst (attach_modifiers None raw_chords modifiers), [])).
  { unfold attach_modifiers. apply (attach_modifiers_no_curves None raw_chords I). }
  split; [exact (Hs page Hp Hm) |].
  unfold build_chords. rewrite (Hs page Hp Hm), (Hs None I Hn), Hm. reflexivity.
Qed.

Lemma no_curves_no_sharps_witness :
  sharp_marks (Some (mkPage 612 [] [] [])) one_chord [] = [].
Proof.
  apply (no_curves_no_sharps (Some (mkPage 612 [] [] [])) one_chord [] []).
  reflexivity.
Defined.

(* ================================================================== *)
(** ** Section builder: rows before the first header *)

Lemma rows_without_header page :
  forall rows,
    (forall row, In row rows -> is_header (classify_row row) = false) ->
    fold_left (row_step page) rows ([], None) = ([], None).
Proof.
  induction rows as [|row rows IH]; intros H; [reflexivity |].
  cbn [fold_left].
  assert (E : row_step page ([], None) row = ([], None)).
  { unfold row_step. destruct row as [|w ws]; [reflexivity |].
    pose proof (H (w :: ws) (or_introl eq_refl)) as Hh. unfold classify_row in Hh.
    rewrite Hh. reflexivity. }
  rewrite E. apply IH. intros r Hr. apply H. right. exact Hr.
Qed.

(** X8: a column in which no row starts with a badge followed by a
    section name yields no section: rows before the first header are
    discarded. *)
Theorem no_header_no_section (words : list Word) (col_start_x : Q) (page : option Page) :
  (forall row, In row (group_lines words) -> is_header (classify_row row) = false) ->
  parse_column words col_start_x page = [].
Proof.
  intros H. unfold parse_column. destruct words as [|w ws]; [reflexivity |].
  rewrite (rows_without_header page (group_lines (w :: ws)) H). reflexivity.
Qed.

Lemma no_header_no_section_witness :
  parse_column lyric_row 40 None = [].
Proof.
  apply no_header_no_section.
  intros row [<- | []]. reflexivity.
Defined.

(* ================================================================== *)
(** ** Line merger: nothing is lost *)

Lemma list_pair_ind {A} (P : list A -> Prop) :
  P [] -> (forall a, P [a]) ->
  (forall a b l, P l -> P (b :: l) -> P (a :: b :: l)) ->
  forall l, P l.
Proof.
  intros H0 H1 H2 l.
  assert (H : P l /\ forall a, P (a :: l)).
  { induction l as [|b l [IH1 IH2]]; [split; [exact H0 | exact H1] |].
    split; [apply IH2 |]. intros a. apply H2; [exact IH1 | apply IH2]. }
  exact (proj1 H).
Qed.

Lemma merge_spec_pair a b l :
  merge_spec (a :: b :: l) =
  if chord_only a && with_lyrics b then merged a b :: merge_spec l
  else a :: merge_spec (b :: l).
Proof. reflexivity. Qed.

Lemma merge_spec_keeps lines :
  flat_map chords_of (merge_spec lines) = flat_map chords_of lines /\
  flat_map lyrics_of (merge_spec lines) = flat_map lyrics_of lines /\
  filter is_dynamics_line (merge_spec lines) = filter is_dynamics_line lines /\
  (List.length (merge_spec lines) <= List.length lines)%nat.
Proof.
  induction lines as [| a | a b l IHl IHb] using list_pair_ind.
  - repeat split. apply le_n.
  - repeat split. apply le_n.
  - rewrite merge_spec_pair. destruct (chord_only a && with_lyrics b) eqn:E.
    + apply andb_true_iff in E as [Ea Eb].
      destruct a as [t | [|c cs] [|x xs]]; try discriminate.
      destruct b as [t | nc [|y ys]]; try discriminate.
      destruct IHl as (H1 & H2 & H3 & H4).
      cbn [flat_map merged chords_of lyrics_of filter is_dynamics_line List.length app].
      rewrite H1, H2, H3. repeat split.
      * rewrite <- app_assoc. reflexivity.
      * lia.
    + destruct IHb as (H1 & H2 & H3 & H4).
      change (flat_map chords_of (a :: merge_spec (b :: l)))
        with (chords_of a ++ flat_map chords_of (merge_spec (b :: l))).
      change (flat_map lyrics_of (a :: merge_spec (b :: l)))
        with (lyrics_of a ++ flat_map lyrics_of (merge_spec (b :: l))).
      change (filter is_dynamics_line (a :: merge_spec (b :: l)))
        with (if is_dynamics_line a
              then a :: filter is_dynamics_line (merge_spec (b :: l))
              else filter is_dynamics_line (merge_spec (b :: l))).
      rewrite H1, H2, H3. repeat split.
      change (List.length (a :: merge_spec (b :: l)))
        with (S (List.length (merge_spec (b :: l)))).
      change (List.length (a :: b :: l)) with (S (List.length (b :: l))). lia.
Qed.

(** X9: the merger pass loses nothing and reorders nothing: the chords of
    all lines in order, the lyrics of all lines in order and the dynamics
    lines are those of the input, and the pass never adds a line. *)
Theorem merge_lines_keeps (lines : list Line) :
  flat_map chords_of (merge_lines lines) = flat_map chords_of lines /\
  flat_map lyrics_of (merge_lines lines) = flat_map lyrics_of lines /\
  filter is_dynamics_line (merge_lines lines) = filter is_dynamics_line lines /\
  (List.length (merge_lines lines) <= List.length lines)%nat.
Proof. rewrite merge_lines_eq. apply merge_spec_keeps. Qed.

(* ================================================================== *)
(** ** Sorting keeps the elements *)

Lemma insert_sorted_perm {A} (le : A -> A -> bool) a l :
  Permutation (insert_sorted le a l) (a :: l).
Proof.
  induction l as [|b l IH]; cbn [insert_sorted]; [apply Permutation_refl |].
  destruct (le a b); [apply Permutation_refl |].
  eapply Permutation_trans; [apply perm_skip; exact IH | apply perm_swap].
Qed.

Lemma sorted_perm {A} (le : A -> A -> bool) l : Permutation (sorted le l) l.
Proof.
  induction l as [|a l IH]; [apply Permutation_refl |].
  unfold sorted in *. cbn [fold_right].
  eapply Permutation_trans; [apply insert_sorted_perm | apply perm_skip; exact IH].
Qed.

Lemma filter_split_perm {A} (p : A -> bool) l :
  Permutation (filter p l ++ filter (fun c => negb (p c)) l) l.
Proof.
  induction l as [|a l IH]; [apply Permutation_refl |].
  cbn [filter]. destruct (p a); cbn [negb app].
  - apply perm_skip. exact IH.
  - eapply Permutation_trans; [apply Permutation_sym, Permutation_middle |].
    apply perm_skip. exact IH.
Qed.

(* ================================================================== *)
(** ** ChordPro emitter: nothing is lost *)

Lemma merge_by_x_eq chords lyrics :
  merge_by_x chords lyrics
  = interleave_spec (sorted span_x_le chords) (sorted span_x_le lyrics).
Proof.
  unfold merge_by_x.
  pose proof (@lyric_fold (sorted span_x_le chords) (sorted span_x_le lyrics)
                [] (sorted span_x_le chords) [] eq_refl
                (sorted_ascending span_x_le span_x_le_total span_x_le_trans chords))
    as H.
  cbn zeta in H. cbn [List.length app] in H.
  destruct (fold_left _ _ _) as [ci result]. exact H.
Qed.

Lemma interleave_spec_perm :
  forall lyrics chords,
    Permutation (interleave_spec chords lyrics)
                (map (fun c => bracket (sp_text c)) chords ++ map sp_text lyrics).
Proof.
  induction lyrics as [|ly lyrics IH]; intros chords; cbn [interleave_spec map].
  - rewrite app_nil_r. apply Permutation_refl.
  - eapply Permutation_trans.
    { apply Permutation_app_head. apply Permutation_app_head. apply IH. }
    eapply Permutation_trans.
    { apply Permutation_app_head. apply Permutation_app_swap_app. }
    rewrite app_assoc, <- map_app.
    eapply Permutation_trans.
    { apply Permutation_app_tail. apply Permutation_map.
      apply (filter_split_perm (within ly)). }
    apply Permutation_app_head. apply Permutation_refl.
Qed.

(** X10: the items of a mixed line are the bracketed chords and the lyric
    texts of the line, each exactly once: the emitter neither drops nor
    repeats a chord or a lyric. *)
Theorem merge_by_x_keeps (chords lyrics : list Span) :
  Permutation (merge_by_x chords lyrics)
              (map (fun c => bracket (sp_text c)) chords ++ map sp_text lyrics) /\
  List.length (merge_by_x chords lyrics)
  = (List.length chords + List.length lyrics)%nat.
Proof.
  assert (H : Permutation (merge_by_x chords lyrics)
                (map (fun c => bracket (sp_text c)) chords ++ map sp_text lyrics)).
  { rewrite merge_by_x_eq.
    eapply Permutation_trans; [apply interleave_spec_perm |].
    apply Permutation_app; apply Permutation_map; apply sorted_perm. }
  split; [exact H |].
  rewrite (Permutation_length H), length_app, !length_map. reflexivity.
Qed.

(* ================================================================== *)
(** ** Line grouper: rows *)

Lemma word_x0_le_total a b : word_x0_le a b = false -> word_x0_le b a = true.
Proof.
  unfold word_x0_le. rewrite Qleb_gt, Qleb_le. intros; lra.
Qed.

Lemma word_x0_le_trans a b c :
  word_x0_le a b = true -> word_x0_le b c = true -> word_x0_le a c = true.
Proof.
  unfold word_x0_le. rewrite !Qleb_le. intros; lra.
Qed.

Lemma flush_row_inv (lines : list (list Word)) (current : list Word) :
  Forall (fun row => row <> [] /\
            StronglySorted (fun a b => word_x0_le a b = true) row) lines ->
  Forall (fun row => row <> [] /\
            StronglySorted (fun a b => word_x0_le a b = true) row)
    (if nonempty current then lines ++ [sorted word_x0_le current] else lines) /\
  Permutation
    (List.concat (if nonempty current then lines ++ [sorted word_x0_le current] else lines))
    (List.concat lines ++ current).
Proof.
  intros H. destruct current as [|w ws]; cbn [nonempty].
  - split; [exact H | rewrite app_nil_r; apply Permutation_refl].
  - split.
    + apply Forall_app. split; [exact H |]. constructor; [| constructor]. split.
      * intros E. pose proof (Permutation_length (sorted_perm word_x0_le (w :: ws))) as L.
        rewrite E in L. discriminate.
      * apply (sorted_ascending word_x0_le word_x0_le_total word_x0_le_trans).
    + rewrite concat_app. cbn [List.concat]. rewrite app_nil_r.
      apply Permutation_app_head. apply sorted_perm.
Qed.

Lemma group_step_inv st w seen :
  Forall (fun row => row <> [] /\
            StronglySorted (fun a b => word_x0_le a b = true) row) (g_lines st) ->
  Permutation (List.concat (g_lines st) ++ g_current_line st) seen ->
  Forall (fun row => row <> [] /\
            StronglySorted (fun a b => word_x0_le a b = true) row)
    (g_lines (group_step st w)) /\
  Permutation (List.concat (g_lines (group_step st w)) ++ g_current_line (group_step st w))
    (seen ++ [w]).
Proof.
  intros Hrows Hperm. unfold group_step.
  destruct (match g_current_y st with
            | Some y => Qle_bool (Qabs (w_top w - y)) 6
            | None => true
            end); cbn [g_lines g_current_line].
  - split; [exact Hrows |]. rewrite app_assoc. apply Permutation_app_tail. exact Hperm.
  - destruct (@flush_row_inv (g_lines st) (g_current_line st) Hrows) as [H1 H2].
    split; [exact H1 |]. apply Permutation_app_tail.
    eapply Permutation_trans; [exact H2 | exact Hperm].
Qed.

Lemma group_fold_inv :
  forall ws st seen,
    Forall (fun row => row <> [] /\
              StronglySorted (fun a b => word_x0_le a b = true) row) (g_lines st) ->
    Permutation (List.concat (g_lines st) ++ g_current_line st) seen ->
    Forall (fun row => row <> [] /\
              StronglySorted (fun a b => word_x0_le a b = true) row)
      (g_lines (fold_left group_step ws st)) /\
    Permutation (List.concat (g_lines (fold_left group_step ws st))
                 ++ g_current_line (fold_left group_step ws st))
      (seen ++ ws).
Proof.
  induction ws as [|w ws IH]; intros st seen Hrows Hperm; cbn [fold_left].
  - rewrite app_nil_r. split; assumption.
  - destruct (@group_step_inv st w seen Hrows Hperm) as [H1 H2].
    rewrite (app_snoc seen w ws). apply IH; assumption.
Qed.

(** X11: the line grouper puts every word of a column in exactly one
    row; no row is empty, and every row is in ascending order of x0. *)
Theorem group_lines_partition (words : list Word) :
  Permutation (List.concat (group_lines words)) words /\
  Forall (fun row => row <> [] /\
            StronglySorted (fun a b => word_x0_le a b = true) row)
    (group_lines words).
Proof.
  unfold group_lines.
  destruct (@group_fold_inv (sorted word_key_le words) (mkGroup [] [] None) []
              (Forall_nil _) (Permutation_refl _)) as [H1 H2].
  cbn [app] in H2.
  destruct (@flush_row_inv _ (g_current_line
              (fold_left group_step (sorted word_key_le words) (mkGroup [] [] None))) H1)
    as [H3 H4].
  split; [| exact H3].
  eapply Permutation_trans; [exact H4 |].
  eapply Permutation_trans; [exact H2 | apply sorted_perm].
Qed.

(* ================================================================== *)
(** ** Section names: shape of the result, table lookup, numbers *)

(** X12: a formatted section name never ends with white space: it ends
    with the digits of its number when it has one, and with the last
    character of the formatted label otherwise. *)
Theorem format_section_name_no_trailing_space (name : text) :
  last_is is_space (format_section_name name) = false.
Proof.
  rewrite (format_section_name_shape name). cbv zeta.
  destruct (search_number _) as [[start d]|] eqn:E.
  - destruct (search_number_parts _ E) as [Hd Hall].
    replace (formatted_of (strip (firstn start (strip (sub_rule_end (strip name)))))
             ++ 32%N :: d)
      with ((formatted_of (strip (firstn start (strip (sub_rule_end (strip name)))))
             ++ [32%N]) ++ d)
      by (rewrite <- app_assoc; reflexivity).
    rewrite last_is_app by exact Hd.
    eapply last_is_exclusive; [exact digit_not_space |].
    apply last_is_forallb; assumption.
  - apply formatted_of_last_space, strip_last.
Qed.

Lemma upper_char_class (P : char -> bool) c :
  (forall x, is_cased x = true -> P x = false) -> P (upper_char c) = P c.
Proof.
  intros HP. destruct (is_cased c) eqn:E.
  - rewrite (HP c E). apply HP. apply upper_char_cased. exact E.
  - rewrite (upper_char_uncased _ E). reflexivity.
Qed.

Lemma upper_head (P : char -> bool) t :
  (forall x, is_cased x = true -> P x = false) ->
  head_is P (upper t) = head_is P t.
Proof.
  intros HP. destruct t as [|c t]; [reflexivity |].
  cbn [upper map head_is]. apply upper_char_class. exact HP.
Qed.

Lemma upper_last (P : char -> bool) t :
  (forall x, is_cased x = true -> P x = false) ->
  last_is P (upper t) = last_is P t.
Proof.
  intros HP. induction t as [|c t IH]; [reflexivity |].
  unfold upper in *. cbn [map]. destruct t as [|c' t].
  - cbn [map last_is]. apply upper_char_class. exact HP.
  - cbn [map last_is] in IH |- *. exact IH.
Qed.

Lemma cased_not_rule c : is_cased c = true -> is_rule c = false.
Proof.
  intros H. destruct (is_rule c) eqn:E; [| reflexivity]. exfalso.
  unfold is_cased, is_upper, is_lower in H. unfold is_rule in E.
  bool_hyp H; bool_hyp E; lia.
Qed.

(** A name without surrounding white space, trailing rule or trailing
    digit is looked up as it is. *)
Lemma format_clean name :
  head_is is_space name = false -> last_is is_space name = false ->
  last_is is_digit name = false -> last_is is_rule name = false ->
  format_section_name name = formatted_of name.
Proof.
  intros Hh Hl Hd Hr. unfold format_section_name. cbv zeta.
  assert (Hs : strip name = name) by (apply strip_id; assumption).
  assert (Hsub : sub_rule_end name = name) by (apply sub_rule_end_id; assumption).
  assert (Hn : search_number name = None).
  { apply search_number_none. rewrite last_is_or, Hd, Hl. reflexivity. }
  rewrite Hs, Hsub, Hs, Hn. fold (formatted_of name). apply app_nil_r.
Qed.

Lemma name_map_keys k v :
  In (k, v) name_map ->
  head_is is_space k = false /\ last_is is_space k = false /\
  last_is is_digit k = false /\ last_is is_rule k = false /\
  forall d, map_get name_map k d = v.
Proof.
  cbn [name_map In]. intros H.
  repeat (destruct H as [H | H];
          [injection H as <- <-; repeat split; reflexivity |]).
  destruct H.
Qed.

(** X13: the table of section names is looked up without regard to case:
    a name whose upper-case form is a key of the table formats to the
    canonical form of that key. *)
Theorem format_table_ignores_case (k v name : text) :
  In (k, v) name_map -> upper name = k -> format_section_name name = v.
Proof.
  intros Hin Hup.
  destruct (@name_map_keys k v Hin) as (Hh & Hl & Hd & Hr & Hget).
  rewrite <- Hup in Hh, Hl, Hd, Hr.
  rewrite (@upper_head is_space name cased_not_space) in Hh.
  rewrite (@upper_last is_space name cased_not_space) in Hl.
  rewrite (@upper_last is_digit name cased_not_digit) in Hd.
  rewrite (@upper_last is_rule name cased_not_rule) in Hr.
  rewrite (@format_clean name Hh Hl Hd Hr).
  unfold formatted_of. rewrite Hup. apply Hget.
Qed.

Lemma format_table_ignores_case_witness :
  format_section_name (lit "pre-Chorus") = lit "Pre Chorus".
Proof.
  apply (@format_table_ignores_case (lit "PRE-CHORUS") (lit "Pre Chorus")
           (lit "pre-Chorus")).
  - do 4 right. left. reflexivity.
  - reflexivity.
Defined.








(* ================================================================== *)
(** ** Token classifier: chords and tokens that are not bold *)

Lemma between_spec lo hi s :
  between lo hi s = true <-> (lo <= s /\ s <= hi)%Q.
Proof.
  unfold between. rewrite andb_true_iff, !Qleb_le. reflexivity.
Qed.

Lemma between_false lo hi s :
  between lo hi s = false <-> (s < lo \/ hi < s)%Q.
Proof.
  unfold between. rewrite andb_false_iff, !Qleb_gt. reflexivity.
Qed.

(** X15: a token is a chord exactly when its font is bold, its size is
    at least 13 and below 14, and its text neither starts with a slash
    nor is a bare "m".  A bold token of size exactly 14 is a section
    name. *)
Theorem classify_chord_iff (w : Word) :
  classify_word w = chord <->
  is_bold_font (w_fontname w) = true /\
  (13 <= w_size w)%Q /\ (w_size w < 14)%Q /\
  startswith (lit "/") (w_text w) = false /\
  eqb (w_text w) (lit "m") = false.
Proof.
  unfold classify_word. split.
  - destruct (is_bold_font (w_fontname w)) eqn:Hb; cbn [andb].
    + destruct (between 9 11 (w_size w)) eqn:E1;
        [destruct (is_modifier_text (w_text w)); discriminate |].
      destruct (between 14 16 (w_size w)) eqn:E2; [discriminate |].
      destruct (startswith (lit "/") (w_text w)) eqn:E3; [discriminate |].
      destruct (between 13 14 (w_size w)) eqn:E4; cbn [andb].
      * destruct (eqb (w_text w) (lit "m")) eqn:E5; [discriminate |].
        intros _. apply between_spec in E4. apply between_false in E2.
        repeat split; try reflexivity; lra.
      * repeat match goal with
               | |- context [if ?c then _ else _] => destruct c
               end; discriminate.
    + repeat match goal with
             | |- context [if ?c then _ else _] => destruct c
             end; discriminate.
  - intros (Hb & H1 & H2 & H3 & H4). rewrite Hb, H3, H4. cbn [andb].
    assert (E1 : between 9 11 (w_size w) = false) by (apply between_false; lra).
    assert (E2 : between 14 16 (w_size w) = false) by (apply between_false; lra).
    assert (E4 : between 13 14 (w_size w) = true) by (apply between_spec; lra).
    rewrite E1, E2, E4. reflexivity.
Qed.

Lemma classify_chord_iff_witness :
  classify_word (bold_word (lit "G") 10 120 13.6) = chord.
Proof.
  apply (proj2 (classify_chord_iff (bold_word (lit "G") 10 120 13.6))).
  repeat split; first [reflexivity | vm_compute; discriminate].
Defined.

(** X16: a token whose font is not bold is classified by its size alone:
    meta below 12, dynamics from 12 to below 13, lyric from 13 to 14,
    unknown above 14.  A token in a bold font whose name does not
    contain "Regular" is never a lyric and never dynamics. *)
Theorem classify_by_boldness (w : Word) :
  (is_bold_font (w_fontname w) = false ->
   classify_word w =
   if Qltb (w_size w) 12 then meta
   else if Qltb (w_size w) 13 then dynamics
   else if Qle_bool (w_size w) 14 then lyric
   else unknown) /\
  (is_bold_font (w_fontname w) = true ->
   contains (lit "Regular") (w_fontname w) = false ->
   classify_word w <> lyric /\ classify_word w <> dynamics).
Proof.
  unfold classify_word, is_regular_font. split.
  - intros Hb. rewrite Hb. cbn [andb negb]. rewrite orb_true_r. cbn [andb].
    unfold between.
    destruct (Qltb (w_size w) 12) eqn:E12.
    + apply Qltb_lt in E12.
      assert (Qle_bool 12 (w_size w) = false) as -> by (apply Qleb_gt; lra).
      assert (Qle_bool 13 (w_size w) = false) as -> by (apply Qleb_gt; lra).
      reflexivity.
    + apply Qltb_ge in E12.
      assert (Qle_bool 12 (w_size w) = true) as -> by (apply Qleb_le; lra).
      cbn [andb]. destruct (Qltb (w_size w) 13) eqn:E13; [reflexivity |].
      apply Qltb_ge in E13.
      assert (Qle_bool 13 (w_size w) = true) as -> by (apply Qleb_le; lra).
      cbn [andb]. destruct (Qle_bool (w_size w) 14); reflexivity.
  - intros Hb Hr. rewrite Hb, Hr. cbn [andb orb negb].
    repeat match goal with
           | |- context [if ?c then _ else _] => destruct c
           end; split; discriminate.
Qed.

Lemma classify_by_boldness_witness :
  classify_word (regular_word 11) = meta /\
  classify_word (bold_word (lit "G") 10 120 13.6) <> lyric.
Proof.
  split.
  - apply (proj1 (classify_by_boldness (regular_word 11))). reflexivity.
  - apply (proj2 (classify_by_boldness (bold_word (lit "G") 10 120 13.6)));
      reflexivity.
Defined.

(* ================================================================== *)
(** ** Lines of the output *)

Lemma split_parts sep s : Forall (fun p => ~ In sep p) (split sep s).
Proof.
  induction s as [|c s IH]; cbn [split].
  - constructor; [intros [] | constructor].
  - destruct (N.eqb_spec c sep) as [E | E].
    + constructor; [intros [] | exact IH].
    + destruct (split sep s) as [|p ps].
      * constructor; [| constructor]. intros [H | []]. congruence.
      * inversion IH as [|? ? Hp Hps]; subst.
        constructor; [| exact Hps]. intros [H | H]; [congruence | exact (Hp H)].
Qed.

Lemma split_line sep a rest :
  ~ In sep a -> split sep (a ++ sep :: rest) = a :: split sep rest.
Proof.
  induction a as [|c a IH]; intros H; cbn [app split].
  - rewrite N.eqb_refl. reflexivity.
  - destruct (N.eqb_spec c sep) as [E | E].
    + exfalso. apply H. left. exact E.
    + rewrite IH by (intros Hin; apply H; right; exact Hin). reflexivity.
Qed.

Lemma join_cons (sep a : text) (l : list text) :
  l <> [] -> join sep (a :: l) = a ++ sep ++ join sep l.
Proof. destruct l; [congruence | reflexivity]. Qed.

(** Splitting a joined list of lines gives back the leading lines that
    contain no newline. *)
Lemma split_join_lines (sep : char) (H S : list text) :
  Forall (fun p => ~ In sep p) H -> S <> [] ->
  split sep (join [sep] (H ++ S)) = H ++ split sep (join [sep] S).
Proof.
  intros HH HS. induction HH as [|a H Ha HH IH]; [reflexivity |].
  cbn [app]. rewrite join_cons.
  - cbn [app]. rewrite (split_line sep a _ Ha), IH. reflexivity.
  - intros E. apply app_eq_nil in E as [_ E]. exact (HS E).
Qed.

Lemma lstrip_In c s : In c (lstrip s) -> In c s.
Proof.
  induction s as [|x s IH]; [intros [] |]. cbn [lstrip].
  destruct (is_space x); [intros H; right; exact (IH H) | intros H; exact H].
Qed.

Lemma strip_In c s : In c (strip s) -> In c s.
Proof.
  unfold strip, rstrip. intros H. apply lstrip_In.
  apply in_rev in H. apply lstrip_In in H. apply in_rev in H. exact H.
Qed.

Lemma join_In c sep parts :
  In c (join sep parts) -> In c sep \/ exists p, In p parts /\ In c p.
Proof.
  induction parts as [|a parts IH]; [intros [] |].
  destruct parts as [|b parts].
  - cbn [join]. intros H. right. exists a. split; [left; reflexivity | exact H].
  - change (join sep (a :: b :: parts)) with (a ++ sep ++ join sep (b :: parts)).
    intros H. apply in_app_or in H as [H | H].
    + right. exists a. split; [left; reflexivity | exact H].
    + apply in_app_or in H as [H | H]; [left; exact H |].
      destruct (IH H) as [H' | (p & Hp & Hc)]; [left; exact H' |].
      right. exists p. split; [right; exact Hp | exact Hc].
Qed.

Lemma artist_rest_In c :
  forall s group_rev g,
    artist_rest group_rev s = Some g -> In c g -> In c group_rev \/ In c s.
Proof.
  induction s as [|x s IH]; intros group_rev g; cbn [artist_rest].
  - destruct (startswith (lit "Key:") (lstrip [])); [| discriminate].
    intros H Hc. injection H as <-. left. apply in_rev. exact Hc.
  - destruct (startswith (lit "Key:") (lstrip (x :: s))).
    + intros H Hc. injection H as <-. left. apply in_rev. exact Hc.
    + destruct (x =? 10)%N; [discriminate |].
      intros H Hc. destruct (IH _ _ H Hc) as [[E | Hin] | Hin].
      * right. left. exact E.
      * left. exact Hin.
      * right. right. exact Hin.
Qed.

Lemma artist_match_In c line g :
  artist_match line = Some g -> In c g -> In c line.
Proof.
  unfold artist_match. destruct line as [|x s]; [discriminate |].
  destruct (x =? 10)%N; [discriminate |].
  intros H Hc. destruct (artist_rest_In c _ _ H Hc) as [[E | []] | Hin].
  - left. exact E.
  - right. exact Hin.
Qed.

Lemma scan_title_single_line :
  forall lines i title_parts artist,
    Forall (fun p => ~ In 10%N p) lines ->
    Forall (fun p => ~ In 10%N p) title_parts -> ~ In 10%N artist ->
    Forall (fun p => ~ In 10%N p) (fst (scan_title i lines title_parts artist)) /\
    ~ In 10%N (snd (scan_title i lines title_parts artist)).
Proof.
  induction lines as [|line lines IH]; intros i title_parts artist Hl Hp Ha.
  - split; assumption.
  - inversion Hl as [|? ? Hline Hlines]; subst.
    assert (Hs : ~ In 10%N (strip line))
      by (intros H; apply Hline; apply strip_In; exact H).
    assert (Hparts : Forall (fun p => ~ In 10%N p) (title_parts ++ [strip line])).
    { apply Forall_app. split; [exact Hp |]. constructor; [exact Hs | constructor]. }
    cbn [scan_title].
    destruct (contains (lit "Page:") line || contains (lit "Key:") line).
    + destruct (contains (lit "Key:") line); [| split; assumption].
      destruct (artist_match line) as [g|] eqn:Eg; [| split; assumption].
      destruct (nonempty (strip g) && negb (endswith (lit ")") (strip g))
                && negb (endswith (lit "]") (strip g))); [| split; assumption].
      split; [exact Hp |]. cbn [snd]. intros H. apply Hline.
      apply (artist_match_In _ _ Eg). apply strip_In. exact H.
    + destruct (Nat.eqb i 0); [apply IH; assumption |].
      destruct (Nat.eqb i 1); [| apply IH; assumption].
      match goal with
      | |- context [if ?c then _ else _] => destruct c
      end; [apply IH; assumption | split; assumption].
Qed.

Lemma extract_metadata_no_newline (t : text) (k : string) (v : text) :
  dict_get (extract_metadata_text t) k = Some v -> ~ In 10%N v.
Proof.
  rewrite extract_metadata_shape.
  destruct (@scan_title_single_line (split 10%N t) 0%nat [] []
              (split_parts 10%N t) (Forall_nil _) (fun H => H)) as [Htitle Hartist].
  cbn [dict_get].
  destruct (String.eqb k "title").
  { intros H. injection H as <-. intros H.
    apply join_In in H as [H | (p & Hp & Hc)].
    - cbn in H. destruct H as [H | []]. discriminate.
    - rewrite Forall_forall in Htitle. exact (Htitle p Hp Hc). }
  destruct (String.eqb k "artist"); [intros H; injection H as <-; exact Hartist |].
  destruct (String.eqb k "key").
  { intros H. injection H as <-.
    destruct (re_search match_key t) as [g|] eqn:E; [| intros []].
    apply re_search_some in E as [s E].
    destruct (match_key_shape _ E) as (c & acc & -> & Hc & _ & Hacc).
    unfold replace_char. rewrite map_map. intros H.
    apply in_map_iff in H as (x & Hx & Hin).
    assert (Hx' : x <> 10%N).
    { destruct Hin as [<- | Hin]; [lia |].
      rewrite Forall_forall in Hacc.
      destruct (Hacc x Hin) as [-> | [-> | [-> | [-> | ->]]]]; discriminate. }
    revert Hx. destruct (x =? sharp_sign)%N; [discriminate |].
    destruct (x =? flat_sign)%N; [discriminate | congruence]. }
  destruct (String.eqb k "tempo").
  { intros H. injection H as <-.
    destruct (re_search match_tempo t) as [g|] eqn:E; [| intros []].
    apply re_search_some in E as [s E].
    destruct (match_tempo_shape _ E) as [_ Hall].
    rewrite forallb_forall in Hall. intros H. specialize (Hall _ H). discriminate. }
  destruct (String.eqb k "time"); [| discriminate].
  intros H. injection H as <-.
  destruct (re_search match_time t) as [g|] eqn:E.
  - apply re_search_some in E as [s E].
    destruct (match_time_shape _ E) as (n & d & -> & _ & _ & Hn & Hd).
    rewrite forallb_forall in Hn, Hd. intros H.
    apply in_app_or in H as [H | [H | H]].
    + specialize (Hn _ H). discriminate.
    + discriminate.
    + specialize (Hd _ H). discriminate.
  - cbn. intros [H | [H | [H | []]]]; discriminate.
Qed.

(** X17: no value of the metadata record contains a newline, so every
    header tag of the output is a single line. *)
Theorem metadata_single_line (t : text) (k : string) (v : text) :
  dict_get (extract_metadata_text t) k = Some v -> ~ In 10%N v.
Proof. apply extract_metadata_no_newline. Qed.

Lemma metadata_single_line_witness :
  ~ In 10%N (lit "John Newton").
Proof.
  apply (@metadata_single_line (amazing_grace_head ++ lit "...") "artist"
           (lit "John Newton")).
  reflexivity.
Defined.

Lemma tag_no_newline (name : string) (value : text) :
  ~ In 10%N (lit name) -> ~ In 10%N value -> ~ In 10%N (tag name value).
Proof.
  intros Hn Hv. unfold tag. intros H.
  apply in_app_or in H as [H | H]; [cbn in H; destruct H as [H | []]; discriminate |].
  apply in_app_or in H as [H | H]; [exact (Hn H) |].
  apply in_app_or in H as [H | H];
    [cbn in H; destruct H as [H | [H | []]]; discriminate |].
  apply in_app_or in H as [H | H]; [exact (Hv H) |].
  cbn in H. destruct H as [H | []]. discriminate.
Qed.

Lemma optional_tag_lines (t : text) (key : string) :
  ~ In 10%N (lit key) ->
  Forall (fun p => ~ In 10%N p) (optional_tag (extract_metadata_text t) key) /\
  (List.length (optional_tag (extract_metadata_text t) key) <= 1)%nat.
Proof.
  intros Hk. unfold optional_tag.
  destruct (dict_get (extract_metadata_text t) key) as [[|c v]|] eqn:E.
  - split; [constructor | cbn; lia].
  - split; [| cbn; lia]. constructor; [| constructor].
    apply tag_no_newline; [exact Hk |].
    exact (extract_metadata_no_newline t key E).
  - split; [constructor | cbn; lia].
Qed.

(** X18: the output of a conversion, split at newlines, starts with the
    header tags, each on a line of its own: the title tag first, then the
    artist, key, tempo and time tags that are not empty.  They are at
    least two (title and time) and at most five lines. *)
Theorem output_header_lines (pdf_path : text) (page : Page) (rest : list Page) :
  let md := extract_metadata_text (page_text page) in
  let tags :=
    [tag "title" (dict_get_default md "title" (lit "Untitled"))]
    ++ optional_tag md "artist" ++ optional_tag md "key"
    ++ optional_tag md "tempo" ++ optional_tag md "time" in
  exists out tail,
    convert_pdf pdf_path (page :: rest) = Some out /\
    split 10%N out = tags ++ tail /\
    (2 <= List.length tags <= 5)%nat.
Proof.
  cbv zeta. unfold convert_pdf. cbn [extract_metadata].
  set (md := extract_metadata_text (page_text page)).
  set (sections := flat_map emit_section _).
  set (tags := [tag "title" (dict_get_default md "title" (lit "Untitled"))]
               ++ optional_tag md "artist" ++ optional_tag md "key"
               ++ optional_tag md "tempo" ++ optional_tag md "time").
  assert (Hhead : emit_header md ++ sections = tags ++ ([] :: sections)).
  { unfold emit_header, tags. rewrite <- !app_assoc. reflexivity. }
  destruct (optional_tag_lines (page_text page) "artist") as [Ha La];
    [cbn; intuition discriminate |].
  destruct (optional_tag_lines (page_text page) "key") as [Hk Lk];
    [cbn; intuition discriminate |].
  destruct (optional_tag_lines (page_text page) "tempo") as [Hp Lp];
    [cbn; intuition discriminate |].
  destruct (optional_tag_lines (page_text page) "time") as [Hi Li];
    [cbn; intuition discriminate |].
  fold md in Ha, La, Hk, Lk, Hp, Lp, Hi, Li.
  assert (Htitle : ~ In 10%N (tag "title" (dict_get_default md "title" (lit "Untitled")))).
  { apply tag_no_newline; [cbn; intuition discriminate |].
    unfold dict_get_default.
    destruct (dict_get md "title") as [v|] eqn:E.
    - exact (extract_metadata_no_newline (page_text page) "title" E).
    - cbn. intuition discriminate. }
  assert (Htime : List.length (optional_tag md "time") = 1%nat).
  { unfold md. rewrite extract_metadata_shape. unfold optional_tag. cbn [dict_get String.eqb Ascii.eqb Bool.eqb].
    destruct (re_search match_time (page_text page)) as [g|] eqn:E; [| reflexivity].
    apply re_search_some in E as [s E].
    destruct (match_time_shape _ E) as (n & d & -> & Hn & _).
    destruct n; [congruence | reflexivity]. }
  eexists _, _. split; [reflexivity |]. split.
  - rewrite Hhead. apply split_join_lines; [| discriminate].
    unfold tags. constructor; [exact Htitle |].
    repeat (apply Forall_app; split); assumption.
  - unfold tags. cbn [app List.length]. rewrite !length_app. lia.
Qed.

(* ================================================================== *)
(** ** The library indexer reads the tags of the converter *)

Lemma lazy_rest_stop :
  forall (g group_rev rest : text),
    ~ In 125%N g -> ~ In 10%N g ->
    lazy_rest group_rev (g ++ 125%N :: rest) = Some (rev group_rev ++ g).
Proof.
  induction g as [|x g IH]; intros group_rev rest H1 H2; cbn [app lazy_rest].
  - rewrite app_nil_r. reflexivity.
  - destruct (N.eqb_spec x 125) as [E | _]; [exfalso; apply H1; left; auto |].
    destruct (N.eqb_spec x 10) as [E | _]; [exfalso; apply H2; left; auto |].
    rewrite IH;
      [| intros H; apply H1; right; exact H | intros H; apply H2; right; exact H].
    cbn [rev]. rewrite <- app_assoc. reflexivity.
Qed.

Lemma lazy_group_stop (g rest : text) :
  g <> [] -> ~ In 125%N g -> ~ In 10%N g ->
  lazy_group (g ++ 125%N :: rest) = Some g.
Proof.
  intros Hg H1 H2. destruct g as [|c g]; [congruence |].
  cbn [app lazy_group].
  destruct (N.eqb_spec c 10) as [E | _]; [exfalso; apply H2; left; auto |].
  rewrite lazy_rest_stop;
    [| intros H; apply H1; right; exact H | intros H; apply H2; right; exact H].
  reflexivity.
Qed.

Lemma value_match_text (v rest : text) :
  v <> [] -> head_is is_space v = false -> ~ In 125%N v -> ~ In 10%N v ->
  forall ws : text,
    forallb is_space ws = true -> value_match (ws ++ v ++ 125%N :: rest) = Some v.
Proof.
  intros Hv Hh H1 H2. induction ws as [|c ws IH]; intros Hws.
  - cbn [app]. destruct v as [|x v]; [congruence |]. cbn [head_is] in Hh.
    cbn [app value_match]. rewrite Hh.
    apply (@lazy_group_stop (x :: v) rest); assumption.
  - cbn [forallb] in Hws. apply andb_true_iff in Hws as [Hc Hws].
    cbn [app value_match]. rewrite Hc, (IH Hws). reflexivity.
Qed.

Lemma value_match_blank :
  forall ws : text,
    ws <> [] -> forallb is_space ws = true -> ~ In 10%N ws ->
    exists c, value_match (ws ++ [125%N]) = Some [c] /\ is_space c = true.
Proof.
  induction ws as [|c ws IH]; intros Hne Hws Hn; [congruence |].
  cbn [forallb] in Hws. apply andb_true_iff in Hws as [Hc Hws].
  cbn [app value_match]. rewrite Hc.
  destruct ws as [|c' ws].
  - exists c. split; [| exact Hc]. cbn [app value_match lazy_group lazy_rest].
    change (is_space 125%N) with false. cbn [N.eqb Pos.eqb].
    destruct (N.eqb_spec c 10) as [E | _]; [exfalso; apply Hn; left; auto |].
    reflexivity.
  - destruct IH as (x & Hx & Hsx); [discriminate | exact Hws | |].
    + intros H. apply Hn. right. exact H.
    + exists x. rewrite Hx. split; [reflexivity | exact Hsx].
Qed.

Lemma lstrip_span s : lstrip s = snd (span is_space s).
Proof.
  induction s as [|c s IH]; [reflexivity |]. cbn [lstrip span].
  destruct (is_space c); [| reflexivity].
  rewrite IH. destruct (span is_space s). reflexivity.
Qed.

(** What follows the tag name in a tag of the converter, with a value
    free of closing braces and newlines, matches, and the value found
    is the value up to surrounding white space. *)
Lemma tail_match_value (v : text) :
  ~ In 125%N v -> ~ In 10%N v ->
  exists g, tail_match (lit ": " ++ v ++ lit "}") = Some g /\ strip g = strip v.
Proof.
  intros H1 H2. unfold tail_match.
  change (lstrip (lit ": " ++ v ++ lit "}")) with (58%N :: 32%N :: v ++ [125%N]).
  cbn [N.eqb Pos.eqb].
  pose proof (span_app is_space v) as Happ.
  pose proof (span_fst_all is_space v) as Hall.
  pose proof (lstrip_span v) as Hl.
  pose proof (lstrip_head v) as Hh.
  destruct (span is_space v) as [ws v']. cbn [fst snd] in *.
  assert (Hs : strip v = rstrip v') by (unfold strip; rewrite Hl; reflexivity).
  destruct v' as [|x v'].
  - rewrite app_nil_r in Happ. subst ws.
    destruct (@value_match_blank (32%N :: v)) as (c & Hc & Hsc).
    + discriminate.
    + cbn [forallb]. rewrite Hall. reflexivity.
    + intros [E | H]; [discriminate | exact (H2 H)].
    + exists [c]. split; [exact Hc |]. rewrite Hs.
      unfold strip. cbn [lstrip]. rewrite Hsc. reflexivity.
  - exists (x :: v'). split.
    + rewrite <- Happ, <- app_assoc.
      change (value_match ((32%N :: ws) ++ (x :: v') ++ 125%N :: []) = Some (x :: v')).
      apply (@value_match_text (x :: v') []).
      * discriminate.
      * rewrite <- Hl. exact Hh.
      * intros H. apply H1. rewrite <- Happ. apply in_or_app. right. exact H.
      * intros H. apply H2. rewrite <- Happ. apply in_or_app. right. exact H.
      * cbn [forallb]. rewrite Hall. reflexivity.
    + rewrite Hs. unfold strip. rewrite lstrip_id; [reflexivity |].
      rewrite <- Hl. exact Hh.
Qed.

Lemma index_line_tag (name : string) (v : text) :
  In name ["title"; "artist"; "key"]%string ->
  ~ In 125%N v -> ~ In 10%N v ->
  index_line (tag name v) = Some (lit name, strip v).
Proof.
  intros Hname H1 H2.
  destruct (@tail_match_value v H1 H2) as (g & Hg & Hs).
  unfold index_line, tag.
  destruct Hname as [<- | [<- | [<- | []]]];
    cbn [lit list_ascii_of_string map N_of_ascii N_of_digits app index_match
         index_tags match_tags after_prefix_nocase];
    cbn in Hg |- *; rewrite Hg; cbn; rewrite Hs; reflexivity.
Qed.

(** X19: the indexer reads back the title, artist and key tags that the
    converter writes: for a value without closing brace and newline, the
    tag yields the tag name and the value stripped of surrounding white
    space (the empty text for an empty value). *)
Theorem index_reads_tag (name : string) (v : text) :
  In name ["title"; "artist"; "key"]%string ->
  ~ In 125%N v -> ~ In 10%N v ->
  index_line (tag name v) = Some (lit name, strip v).
Proof. apply index_line_tag. Qed.

Lemma index_reads_tag_witness :
  index_line (tag "title" (lit "Amazing Grace")) = Some (lit "title", lit "Amazing Grace").
Proof.
  apply (@index_reads_tag "title" (lit "Amazing Grace")).
  - left. reflexivity.
  - vm_compute. intuition discriminate.
  - vm_compute. intuition discriminate.
Defined.

Lemma index_line_other (v : text) :
  index_line (tag "tempo" v) = None /\ index_line (tag "time" v) = None /\
  index_line [] = None.
Proof. repeat split; reflexivity. Qed.

(** X20: the indexer takes nothing from the other lines the converter
    writes: tempo, time, section and dynamics tags, and blank lines. *)
Theorem index_skips_other_tags (v : text) :
  index_line (tag "tempo" v) = None /\
  index_line (tag "time" v) = None /\
  index_line (tag "section" v) = None /\
  index_line (tag "dynamics" v) = None /\
  index_line [] = None.
Proof. repeat split; reflexivity. Qed.

Lemma split_whole sep a : ~ In sep a -> split sep a = [a].
Proof.
  induction a as [|c a IH]; intros H; cbn [split]; [reflexivity |].
  destruct (N.eqb_spec c sep) as [E | _]; [exfalso; apply H; left; exact E |].
  rewrite IH by (intros Hin; apply H; right; exact Hin). reflexivity.
Qed.

Lemma split_join_all (sep : char) (l : list text) :
  Forall (fun p => ~ In sep p) l -> l <> [] -> split sep (join [sep] l) = l.
Proof.
  intros Hl. induction Hl as [|a l Ha Hl IH];
    [intros H; exfalso; apply H; reflexivity |]. intros _.
  destruct l as [|b l].
  - cbn [join]. apply split_whole. exact Ha.
  - rewrite join_cons by discriminate. cbn [app].
    rewrite (split_line sep a _ Ha), IH by discriminate. reflexivity.
Qed.

Lemma key_value_no_brace t v :
  dict_get (extract_metadata_text t) "key" = Some v -> ~ In 125%N v.
Proof.
  rewrite extract_metadata_shape. cbn [dict_get String.eqb Ascii.eqb Bool.eqb].
  intros H. injection H as <-.
  destruct (re_search match_key t) as [g|] eqn:E; [| intros []].
  apply re_search_some in E as [s E].
  destruct (match_key_shape _ E) as (c & acc & -> & Hc & _ & Hacc).
  unfold replace_char. rewrite map_map. intros H.
  apply in_map_iff in H as (x & Hx & Hin).
  assert (Hx' : x <> 125%N).
  { destruct Hin as [<- | Hin]; [lia |].
    rewrite Forall_forall in Hacc.
    destruct (Hacc x Hin) as [-> | [-> | [-> | [-> | ->]]]]; discriminate. }
  revert Hx. cbv beta.
  destruct (x =? sharp_sign)%N; [vm_compute; discriminate |].
  destruct (x =? flat_sign)%N; [discriminate | exact Hx'].
Qed.

Ltac header_line_facts :=
  repeat match goal with
         | |- Forall _ (_ :: _) => constructor
         | |- Forall _ [] => constructor
         | |- ~ In 10%N (tag _ _) =>
             apply tag_no_newline; [cbn; intuition discriminate | assumption]
         | |- ~ In 10%N [] => intros []
         end.

Ltac index_header_lines :=
  repeat match goal with
         | |- context [index_line (tag "tempo" ?v)] =>
             rewrite (proj1 (index_line_other v))
         | |- context [index_line (tag "time" ?v)] =>
             rewrite (proj1 (proj2 (index_line_other v)))
         | |- context [index_line (tag ?n ?v)] =>
             rewrite (@index_line_tag n v) by (first [assumption | cbn; tauto])
         end.

(** X21: for a document that yields no section, the indexer finds in the
    output of the converter the title, the artist and the key that the
    converter extracted, up to surrounding white space, provided title
    and artist contain no closing brace.  An empty title is found as the
    empty text (the title entry is present), while an empty artist or key
    has no entry. *)
Theorem index_of_converted (pdf_path : text) (page : Page) (rest : list Page) :
  let md := extract_metadata_text (page_text page) in
  let title := dict_get_default md "title" [] in
  let artist := dict_get_default md "artist" [] in
  let key := dict_get_default md "key" [] in
  parse_pages (page :: rest) 0 title = [] ->
  ~ In 125%N title -> ~ In 125%N artist ->
  exists out,
    convert_pdf pdf_path (page :: rest) = Some out /\
    tdict_get (index_metadata out) (lit "title") = Some (strip title) /\
    tdict_get (index_metadata out) (lit "artist")
      = (if nonempty artist then Some (strip artist) else None) /\
    tdict_get (index_metadata out) (lit "key")
      = (if nonempty key then Some (strip key) else None).
Proof.
  cbv zeta. intros Hsec.
  unfold convert_pdf. cbn [extract_metadata]. rewrite Hsec. clear Hsec.
  cbn [flat_map]. rewrite app_nil_r.
  pose proof (extract_metadata_no_newline (page_text page)) as Hnl.
  pose proof (@key_value_no_brace (page_text page)) as Hkb.
  pose proof (extract_metadata_shape (page_text page)) as Hshape.
  remember (extract_metadata_text (page_text page)) as md eqn:Hmd. clear Hmd.
  assert (Hex : exists T A K P I : text,
    md = [("title", T); ("artist", A); ("key", K); ("tempo", P); ("time", I)]%string)
    by (rewrite Hshape; repeat eexists).
  clear Hshape. destruct Hex as (T & A & K & P & I & ->).
  pose proof (Hnl "title"%string T eq_refl) as HT10.
  pose proof (Hnl "artist"%string A eq_refl) as HA10.
  pose proof (Hnl "key"%string K eq_refl) as HK10.
  pose proof (Hnl "tempo"%string P eq_refl) as HP10.
  pose proof (Hnl "time"%string I eq_refl) as HI10.
  pose proof (Hkb K eq_refl) as HK125.
  clear Hnl Hkb.
  change (dict_get_default _ "title" []) with T.
  change (dict_get_default _ "artist" []) with A.
  change (dict_get_default _ "key" []) with K.
  intros HT125 HA125.
  eexists. split; [reflexivity |].
  unfold index_metadata, emit_header, optional_tag.
  change (dict_get_default _ "title" (lit "Untitled")) with T.
  destruct A as [|a A]; destruct K as [|k K]; destruct P as [|p P];
    destruct I as [|i I];
    cbn [dict_get String.eqb Ascii.eqb Bool.eqb app nonempty];
    (rewrite split_join_all; [| header_line_facts | discriminate]);
    cbn [firstn fold_left]; unfold index_step;
    index_header_lines;
    repeat split; reflexivity.
Qed.

Lemma index_of_converted_witness :
  exists out,
    convert_pdf (lit "hymn.pdf") blank_pdf = Some out /\
    tdict_get (index_metadata out) (lit "title") = Some [].
Proof.
  destruct (@index_of_converted (lit "hymn.pdf") (mkPage 612 [] [] []) [])
    as (out & H1 & H2 & _).
  - reflexivity.
  - intros [].
  - intros [].
  - exists out. split; [exact H1 | exact H2].
Defined.

(* ================================================================== *)
(** ** Metadata extractor: title and artist lines *)

(** X22: when the first two lines of the page carry neither "Page:" nor
    "Key:", the title is the first line, stripped, and the artist the
    second line, stripped, unless the second line continues the title
    (it starts with a closing bracket, or the first line leaves a
    bracket open): then the title is both lines joined by a space. *)
Theorem title_and_artist_lines (first second rest : text) :
  ~ In 10%N first -> ~ In 10%N second ->
  has_marker first = false -> has_marker second = false ->
  let md := extract_metadata_text (first ++ 10%N :: second ++ 10%N :: rest) in
  (title_continues (strip first) (strip second) = false ->
   dict_get md "title" = Some (strip first) /\
   dict_get md "artist" = Some (strip second)) /\
  (title_continues (strip first) (strip second) = true ->
   dict_get md "title" = Some (strip first ++ lit " " ++ strip second)).
Proof.
  intros H1 H2 M1 M2. cbv zeta. rewrite extract_metadata_shape.
  rewrite (split_line 10%N first _ H1), (split_line 10%N second _ H2).
  unfold has_marker in M1, M2. unfold title_continues.
  cbn [scan_title Nat.eqb app]. rewrite M1, M2.
  split; intros Hc; rewrite Hc.
  - split; reflexivity.
  - cbn [dict_get String.eqb Ascii.eqb Bool.eqb]. f_equal.
    assert (Hscan : forall lines i parts artist,
              (2 <= i)%nat -> fst (scan_title i lines parts artist) = parts).
    { induction lines as [|line lines IH]; intros i parts artist Hi; [reflexivity |].
      cbn [scan_title].
      destruct (contains (lit "Page:") line || contains (lit "Key:") line).
      - destruct (contains (lit "Key:") line); [| reflexivity].
        destruct (artist_match line); [| reflexivity].
        match goal with |- context [if ?c then _ else _] => destruct c end;
          reflexivity.
      - destruct i as [|[|i]]; [lia | lia |]. cbn [Nat.eqb].
        apply IH. lia. }
    rewrite Hscan by lia. reflexivity.
Qed.

Lemma title_and_artist_lines_witness :
  dict_get (extract_metadata_text
              (lit "Amazing Grace" ++ 10%N :: lit "John Newton" ++ 10%N :: lit "..."))
           "artist" = Some (lit "John Newton").
Proof.
  apply (@title_and_artist_lines (lit "Amazing Grace") (lit "John Newton") (lit "...")).
  - vm_compute. intuition discriminate.
  - vm_compute. intuition discriminate.
  - reflexivity.
  - reflexivity.
  - reflexivity.
Defined.

(* ================================================================== *)
(** ** Line grouper: the height of a row *)

Lemma flush_row_near (lines : list (list Word)) (current : list Word) (y : Q) :
  Forall (fun row => exists y, row_near y row) lines ->
  row_near y current ->
  Forall (fun row => exists y, row_near y row)
    (if nonempty current then lines ++ [sorted word_x0_le current] else lines).
Proof.
  intros Hl Hc. destruct (nonempty current); [| exact Hl].
  apply Forall_app. split; [exact Hl |]. constructor; [| constructor].
  exists y. intros w Hw. apply Hc.
  apply (Permutation_in w (sorted_perm word_x0_le current) Hw).
Qed.

Lemma group_step_near st w : group_inv st -> group_inv (group_step st w).
Proof.
  unfold group_inv, group_step. intros [Hl Hc].
  destruct (g_current_y st) as [y|] eqn:Ey.
  - destruct Hc as [Hnear Hzero].
    destruct (Qle_bool (Qabs (w_top w - y)) 6) eqn:E; cbn [g_lines g_current_line g_current_y].
    + apply Qleb_le in E. split; [exact Hl |]. unfold y_or.
      destruct (Qeq_bool y 0) eqn:E0.
      * apply Qeq_bool_iff in E0. split.
        -- intros w' Hw'. apply in_app_or in Hw' as [Hw' | [<- | []]].
           ++ pose proof (Hzero E0 w' Hw') as Hz.
              apply Qabs_Qle_condition in E. apply Qabs_Qle_condition.
              split; lra.
           ++ apply Qabs_Qle_condition. split; lra.
        -- intros Ew w' Hw'. apply in_app_or in Hw' as [Hw' | [<- | []]].
           ++ exact (Hzero E0 w' Hw').
           ++ exact Ew.
      * apply Qeq_bool_neq in E0. split.
        -- intros w' Hw'. apply in_app_or in Hw' as [Hw' | [<- | []]].
           ++ exact (Hnear w' Hw').
           ++ exact E.
        -- intros Ey0. exfalso. exact (E0 Ey0).
    + split; [exact (@flush_row_near (g_lines st) (g_current_line st) y Hl Hnear) |].
      split.
      * intros w' [<- | []]. apply Qabs_Qle_condition. split; lra.
      * intros Ew w' [<- | []]. exact Ew.
  - cbn [g_lines g_current_line g_current_y]. rewrite Hc. split; [exact Hl |].
    cbn [app y_or]. split.
    + intros w' [<- | []]. apply Qabs_Qle_condition. split; lra.
    + intros Ew w' [<- | []]. exact Ew.
Qed.

Lemma group_fold_near :
  forall ws st, group_inv st -> group_inv (fold_left group_step ws st).
Proof.
  induction ws as [|w ws IH]; intros st H; [exact H |].
  cbn [fold_left]. apply IH. apply group_step_near. exact H.
Qed.

(** X23: every row of the line grouper has a reference height such that
    the top of each of its words lies within 6 of it. *)
Theorem group_lines_row_height (words : list Word) (row : list Word) :
  In row (group_lines words) -> exists y, row_near y row.
Proof.
  unfold group_lines.
  pose proof (@group_fold_near (sorted word_key_le words) (mkGroup [] [] None)
                (conj (Forall_nil _) eq_refl)) as [Hl Hc].
  set (st := fold_left group_step (sorted word_key_le words) (mkGroup [] [] None)) in *.
  assert (H : Forall (fun row => exists y, row_near y row)
                (if nonempty (g_current_line st)
                 then g_lines st ++ [sorted word_x0_le (g_current_line st)]
                 else g_lines st)).
  { destruct (g_current_y st) as [y|].
    - exact (@flush_row_near (g_lines st) (g_current_line st) y Hl (proj1 Hc)).
    - rewrite Hc. exact Hl. }
  rewrite Forall_forall in H. exact (H row).
Qed.

Lemma group_lines_row_height_witness :
  exists y, row_near y lyric_row.
Proof.
  apply (@group_lines_row_height lyric_row lyric_row).
  left. reflexivity.
Defined.

(* ================================================================== *)
(** ** Header region of a page *)

Lemma modifier_step_curves p1 p2 raw_chords st m :
  page_curves p1 = page_curves p2 ->
  modifier_step (Some p1) raw_chords st m = modifier_step (Some p2) raw_chords st m.
Proof.
  intros H. unfold modifier_step, detect_sharp_curves. rewrite H. reflexivity.
Qed.

Lemma standalone_step_curves p1 p2 cm hs c :
  page_curves p1 = page_curves p2 ->
  standalone_sharp_step (Some p1) cm hs c = standalone_sharp_step (Some p2) cm hs c.
Proof.
  intros H. unfold standalone_sharp_step. rewrite H. reflexivity.
Qed.

Lemma fold_left_ext {A B} (f g : A -> B -> A) :
  (forall a b, f a b = g a b) ->
  forall l a, fold_left f l a = fold_left g l a.
Proof.
  intros H. induction l as [|b l IH]; intros a; [reflexivity |].
  cbn [fold_left]. rewrite H. apply IH.
Qed.

Lemma build_chords_curves p1 p2 raw_chords modifiers bass_notes :
  page_curves p1 = page_curves p2 ->
  build_chords (Some p1) raw_chords modifiers bass_notes
  = build_chords (Some p2) raw_chords modifiers bass_notes.
Proof.
  intros H.
  assert (Ha : attach_modifiers (Some p1) raw_chords modifiers
               = attach_modifiers (Some p2) raw_chords modifiers).
  { unfold attach_modifiers. apply fold_left_ext.
    intros st m. apply modifier_step_curves. exact H. }
  unfold build_chords, sharp_marks. rewrite Ha.
  destruct (attach_modifiers (Some p2) raw_chords modifiers) as [cm hs].
  rewrite (fold_left_ext (standalone_sharp_step (Some p1) cm)
             (standalone_sharp_step (Some p2) cm)
             (fun hs' c => @standalone_step_curves p1 p2 cm hs' c H)).
  reflexivity.
Qed.

Lemma parse_column_curves p1 p2 words col_start_x :
  page_curves p1 = page_curves p2 ->
  parse_column words col_start_x (Some p1) = parse_column words col_start_x (Some p2).
Proof.
  intros H. unfold parse_column. destruct words as [|w ws]; [reflexivity |].
  rewrite (fold_left_ext (row_step (Some p1)) (row_step (Some p2))); [reflexivity |].
  intros st row. unfold row_step.
  destruct st as [sections current]. destruct row as [|x xs]; [reflexivity |].
  destruct (is_header _); [reflexivity |].
  destruct current as [cs|]; [| reflexivity].
  rewrite (@build_chords_curves p1 p2 _ _ _ H). reflexivity.
Qed.

Lemma filter_filter_implied {A} (f g : A -> bool) l :
  (forall a, f a = true -> g a = true) -> filter f (filter g l) = filter f l.
Proof.
  intros H. induction l as [|a l IH]; [reflexivity |]. cbn [filter].
  destruct (g a) eqn:Eg; cbn [filter].
  - rewrite IH. reflexivity.
  - destruct (f a) eqn:Ef; [rewrite (H a Ef) in Eg; discriminate | exact IH].
Qed.

Lemma roadmap_scan_above ws :
  forall b,
    roadmap_scan (filter (fun w => Qltb 50 (w_top w)) ws) b = roadmap_scan ws b.
Proof.
  induction ws as [|w ws IH]; intros b; [reflexivity |]. cbn [filter].
  destruct (Qltb 50 (w_top w)) eqn:E.
  - cbn [roadmap_scan]. rewrite E, !IH. reflexivity.
  - cbn [roadmap_scan]. rewrite E, andb_false_r.
    assert (Qltb 150 (w_top w) = false) as ->.
    { apply Qltb_ge. apply Qltb_ge in E. lra. }
    apply IH.
Qed.

Lemma roadmap_floor ws b : (70 <= Qmax_py (roadmap_scan ws b) 70)%Q.
Proof.
  unfold Qmax_py. destruct (Qltb (roadmap_scan ws b) 70) eqn:E.
  - lra.
  - apply Qltb_ge in E. exact E.
Qed.

Lemma keep_word_top min_y title w : keep_word min_y title w = true -> (min_y <= w_top w)%Q.
Proof.
  unfold keep_word. destruct (Qltb (w_top w) min_y) eqn:E; [discriminate |].
  intros _. apply Qltb_ge in E. exact E.
Qed.

Lemma parse_page_restrict (keep : Word -> bool) page page_num title min_y :
  (forall w, keep_word min_y title w = true -> keep w = true) ->
  (match page_num with
   | O => Qmax_py (roadmap_scan (page_words page) 70) 70
   | _ => 45
   end = min_y) ->
  (match page_num with
   | O => Qmax_py (roadmap_scan (filter keep (page_words page)) 70) 70
   | _ => 45
   end = min_y) ->
  parse_page (restrict_words keep page) page_num title = parse_page page page_num title.
Proof.
  intros Hk H1 H2. unfold parse_page, restrict_words.
  cbn [page_words page_width]. rewrite H1, H2.
  rewrite (filter_filter_implied (keep_word min_y title) keep (page_words page) Hk).
  destruct (filter keep (page_words page)) as [|x xs] eqn:Ef.
  - assert (E : filter (keep_word min_y title) (page_words page) = []).
    { rewrite <- (filter_filter_implied (keep_word min_y title) keep (page_words page) Hk).
      rewrite Ef. reflexivity. }
    rewrite E. destruct (page_words page); reflexivity.
  - destruct (page_words page) as [|y ys] eqn:Ew; [discriminate |].
    destruct (filter (keep_word min_y title) (y :: ys)); [reflexivity |].
    f_equal; apply parse_column_curves; reflexivity.
Qed.

(** X24: the header region of a page does not influence the result: on
    the first page the words whose top is at most 50, and on the later
    pages the words whose top is below 45, can be removed without
    changing the sections of the page. *)
Theorem header_region_ignored (page : Page) (page_num : nat) (title : text) :
  parse_page (restrict_words (fun w => Qltb 50 (w_top w)) page) 0 title
  = parse_page page 0 title /\
  parse_page (restrict_words (fun w => Qle_bool 45 (w_top w)) page) (S page_num) title
  = parse_page page (S page_num) title.
Proof.
  split.
  - apply (@parse_page_restrict _ page 0%nat title
             (Qmax_py (roadmap_scan (page_words page) 70) 70)).
    + intros w Hw. apply keep_word_top in Hw. apply Qltb_lt.
      pose proof (roadmap_floor (page_words page) 70). lra.
    + reflexivity.
    + rewrite roadmap_scan_above. reflexivity.
  - apply (@parse_page_restrict _ page (S page_num) title 45).
    + intros w Hw. apply keep_word_top in Hw. apply Qleb_le. exact Hw.
    + reflexivity.
    + reflexivity.
Qed.

Lemma normalize_chord_clean_witness :
  (35%N : char) <> 32%N /\ (35%N : char) <> sharp_sign /\ (35%N : char) <> flat_sign.
Proof.
  apply (proj2 (normalize_chord_clean (lit "F" ++ [sharp_sign]))).
  right. left. reflexivity.
Defined.

(* ================================================================== *)
(** ** End of the output *)

Lemma join_snoc_blank (sep : text) (l : list text) :
  l <> [] -> join sep (l ++ [[]]) = join sep l ++ sep.
Proof.
  induction l as [|a l IH]; [congruence |]. intros _.
  destruct l as [|b l].
  - cbn [app join]. rewrite app_nil_r. reflexivity.
  - cbn [app]. rewrite !join_cons by discriminate.
    change ((b :: l) ++ [[]]) with (b :: l ++ [[]]) in IH.
    rewrite IH by discriminate.
    change (join sep (a :: b :: l)) with (a ++ sep ++ join sep (b :: l)).
    rewrite <- !app_assoc. reflexivity.
Qed.

Lemma emit_sections_end sections :
  flat_map emit_section sections = [] \/
  exists l, flat_map emit_section sections = l ++ [[]].
Proof.
  induction sections as [|s sections IH]; [left; reflexivity |]. right.
  cbn [flat_map]. destruct IH as [-> | (l & ->)].
  - rewrite app_nil_r. unfold emit_section.
    eexists. rewrite !app_assoc. reflexivity.
  - exists (emit_section s ++ l). rewrite app_assoc. reflexivity.
Qed.

Lemma output_lines_end (md : Dict) (sections : list Section) :
  exists body,
    join [10%N] (emit_header md ++ flat_map emit_section sections) = body ++ [10%N].
Proof.
  destruct (emit_sections_end sections) as [-> | (l & ->)].
  - rewrite app_nil_r.
    set (tags := [tag "title" (dict_get_default md "title" (lit "Untitled"))]
                 ++ optional_tag md "artist" ++ optional_tag md "key"
                 ++ optional_tag md "tempo" ++ optional_tag md "time").
    assert (Hh : emit_header md = tags ++ [[]])
      by (unfold emit_header, tags; rewrite <- !app_assoc; reflexivity).
    rewrite Hh. exists (join [10%N] tags).
    apply (@join_snoc_blank [10%N] tags). discriminate.
  - rewrite app_assoc. exists (join [10%N] (emit_header md ++ l)).
    apply (@join_snoc_blank [10%N] (emit_header md ++ l)). discriminate.
Qed.

(** X25: the output of a conversion ends with a newline: the header and
    every section block end with a blank line. *)
Theorem output_ends_with_newline (pdf_path : text) (pdf : Pdf) (out : text) :
  convert_pdf pdf_path pdf = Some out -> exists body, out = body ++ [10%N].
Proof.
  unfold convert_pdf. destruct (extract_metadata pdf) as [md|]; [| discriminate].
  intros H.
  destruct (output_lines_end md (parse_pages pdf 0 (dict_get_default md "title" [])))
    as [body Hb].
  exists body. rewrite <- Hb. congruence.
Qed.

Lemma output_ends_with_newline_witness :
  exists body, lit "{title: }" ++ [10%N] ++ lit "{time: 4/4}" ++ [10%N] = body ++ [10%N].
Proof.
  apply (@output_ends_with_newline (lit "hymn.pdf") blank_pdf). reflexivity.
Defined.
